(** * passh: the SSH-key-backed encryptor and the password store

    A shallow embedding of [pkg/crypto/ssh_encrypt.go] (type [SSHEncryptor],
    methods [Encrypt] and [Decrypt]) and of the storage package (type
    [Store], methods [Add], [Get], [List], [Delete]), together with the
    parts of the Go standard library these methods call:
    [encoding/base64] ([StdEncoding]), [strings.Split], [strings.HasSuffix],
    [strings.TrimSuffix], [path/filepath] ([Clean], [Join], [Dir], [Walk])
    and the [os] file operations.

    Go's [string] is modelled as [string] (a sequence of 8-bit characters),
    [[]byte] as [list byte]; the conversions [[]byte(s)] and [string(b)] are
    [list_byte_of_string] and [string_of_list_byte]. *)

From Stdlib Require Import NArith ZArith Lia List Bool Arith.
From Stdlib Require Import Strings.String Strings.Ascii Strings.Byte.
From Stdlib Require Import Sorting.Sorted Sorting.Permutation.
From Stdlib Require Import Numbers.DecimalString.
Import ListNotations.

Local Open Scope string_scope.
Local Open Scope list_scope.

(** ** Results and errors *)

(** Go errors.  [New msg] is [errors.New(msg)]; [Wrapf msg e] is
    [fmt.Errorf(msg + ": %w", e)]; [CorruptInputError off] is the error of
    [encoding/base64]; [PathError op path errno] is the error of the [os]
    file operations; [ErrUnexpectedEOF] stands for a failed read of
    [rand.Reader]. *)
Inductive errno := ENOENT | ENOTDIR | EISDIR | ENOTEMPTY | EEXIST.

Inductive error :=
| New (msg : string)
| Wrapf (msg : string) (cause : error)
| CorruptInputError (off : nat)
| PathError (op path : string) (e : errno)
| ErrUnexpectedEOF.

(** A Go function returning [(T, error)] with the convention "the value is
    the zero value when the error is not nil". *)
Inductive result (A : Type) :=
| Ok (a : A)
| Err (e : error).
Arguments Ok {A} a.
Arguments Err {A} e.

Definition is_ok {A} (r : result A) : bool :=
  match r with Ok _ => true | Err _ => false end.

(** ** encoding/base64, [StdEncoding] *)

Module Base64.

Local Open Scope N_scope.

(** [const encodeStd] of base64.go. *)
Definition encodeStd : string :=
  "ABCDEFGHIJKLMNOPQRSTUVWXYZabcdefghijklmnopqrstuvwxyz0123456789+/".

(** [StdPadding]. *)
Definition padChar : ascii := "="%char.

(** [enc.encode[i]]: the 64-entry table [encode] holds the alphabet. *)
Definition encode (i : N) : ascii :=
  match String.get (N.to_nat i) encodeStd with
  | Some c => c
  | None => Ascii.zero
  end.

(** [enc.decodeMap[c]]: [NewEncoding] fills the 256-entry table with [0xff]
    and then sets [decodeMap[encoder[i]] = i]. *)
Fixpoint index_from (c : ascii) (s : string) (i : N) : N :=
  match s with
  | EmptyString => 0xff
  | String d s' => if Ascii.eqb c d then i else index_from c s' (i + 1)
  end.

Definition decodeMap (c : ascii) : N := index_from c encodeStd 0.

(** [val>>k & 0x3F]. *)
Definition sextet (val k : N) : N := N.land (N.shiftr val k) 0x3F.

(** [Encoding.Encode]: full 3-byte groups first, then the remainder of one
    or two bytes with padding. *)
Fixpoint Encode (src : list byte) : string :=
  match src with
  | [] => ""
  | [a] =>
      let val := N.shiftl (Byte.to_N a) 16 in
      String (encode (sextet val 18)) (String (encode (sextet val 12))
        (String padChar (String padChar "")))
  | [a; b] =>
      let val := N.lor (N.shiftl (Byte.to_N a) 16) (N.shiftl (Byte.to_N b) 8) in
      String (encode (sextet val 18)) (String (encode (sextet val 12))
        (String (encode (sextet val 6)) (String padChar "")))
  | a :: b :: c :: rest =>
      let val := N.lor (N.lor (N.shiftl (Byte.to_N a) 16)
                              (N.shiftl (Byte.to_N b) 8)) (Byte.to_N c) in
      String (encode (sextet val 18)) (String (encode (sextet val 12))
        (String (encode (sextet val 6)) (String (encode (sextet val 0))
          (Encode rest))))
  end.

Definition EncodeToString (src : list byte) : string := Encode src.

(** [byte(v)]: conversion of a [uint] to [byte] keeps the low 8 bits. *)
Definition to_byte (v : N) : byte := byte_of_ascii (ascii_of_N (v mod 256)).

(** The tail of [decodeQuantum]: the sextets of [dbuf] (missing ones are 0)
    are packed into [val] and the first [dlen - 1] bytes are written. *)
Definition quantum_bytes (dbuf : list N) : list byte :=
  let d := fun i => nth i dbuf 0 in
  let val := N.lor (N.lor (N.lor (N.shiftl (d 0%nat) 18) (N.shiftl (d 1%nat) 12))
                          (N.shiftl (d 2%nat) 6)) (d 3%nat) in
  firstn (Nat.pred (List.length dbuf))
         [to_byte (N.shiftr val 16); to_byte (N.shiftr val 8); to_byte val].

Definition is_newline (c : ascii) : bool :=
  Ascii.eqb c "010"%char || Ascii.eqb c "013"%char.

(** [for si < len(src) && (src[si] == '\n' || src[si] == '\r') { si++ }] *)
Fixpoint skip_newlines (src : string) (si : nat) : string * nat :=
  match src with
  | EmptyString => (src, si)
  | String c rest => if is_newline c then skip_newlines rest (S si) else (src, si)
  end.

(** [Encoding.Decode] as the loop of [decodeQuantum] over the input ([src]
    is the unread part, [si] the index of its first character, [dbuf] the
    sextets of the current quantum read so far).  The result is the decoded
    prefix [dbuf[:n]] and the error.  The 8- and 4-character fast paths of
    [Decode] decode the same quanta and fall back to [decodeQuantum]. *)
Fixpoint decode_from (src : string) (si : nat) (dbuf : list N)
  : list byte * option error :=
  match src with
  | EmptyString =>
      match dbuf with
      | [] => ([], None)
      | _ => ([], Some (CorruptInputError (si - List.length dbuf)))
      end
  | String c rest =>
      let out := decodeMap c in
      if negb (out =? 0xff) then
        let dbuf' := dbuf ++ [out] in
        if (List.length dbuf' =? 4)%nat then
          let '(bs, e) := decode_from rest (S si) [] in
          (quantum_bytes dbuf' ++ bs, e)
        else decode_from rest (S si) dbuf'
      else if is_newline c then decode_from rest (S si) dbuf
      else if negb (Ascii.eqb c padChar) then ([], Some (CorruptInputError si))
      else
        match List.length dbuf with
        | 0%nat | 1%nat => ([], Some (CorruptInputError si))
        | 2%nat =>
            let '(r1, si1) := skip_newlines rest (S si) in
            match r1 with
            | EmptyString => ([], Some (CorruptInputError si1))
            | String c2 r2 =>
                if negb (Ascii.eqb c2 padChar)
                then ([], Some (CorruptInputError (si1 - 1)))
                else
                  let '(r3, si3) := skip_newlines r2 (S si1) in
                  (quantum_bytes dbuf,
                   match r3 with
                   | EmptyString => None
                   | _ => Some (CorruptInputError si3)
                   end)
            end
        | _ =>
            let '(r3, si3) := skip_newlines rest (S si) in
            (quantum_bytes dbuf,
             match r3 with
             | EmptyString => None
             | _ => Some (CorruptInputError si3)
             end)
        end
  end.

(** [Encoding.DecodeString]: returns [dbuf[:n], err]. *)
Definition DecodeString (s : string) : list byte * option error :=
  decode_from s 0 [].

End Base64.

(** ** strings *)

Module Strings.

(** [strings.Split(s, sep)] for a one-character separator, the only use in
    the code ([":"] in [Decrypt], and ["/"] for the elements of a path):
    the substrings between the separators, [[s]] when [s] has none. *)
Fixpoint Split (s : string) (sep : ascii) : list string :=
  match s with
  | EmptyString => [""]
  | String c s' =>
      if Ascii.eqb c sep then "" :: Split s' sep
      else match Split s' sep with
           | h :: t => String c h :: t
           | [] => [String c ""]
           end
  end.

(** [strings.HasSuffix]:
    [len(s) >= len(suffix) && s[len(s)-len(suffix):] == suffix]. *)
Definition HasSuffix (s suffix : string) : bool :=
  (String.length suffix <=? String.length s)%nat
  && String.eqb (substring (String.length s - String.length suffix)
                           (String.length suffix) s) suffix.

(** [strings.TrimSuffix]. *)
Definition TrimSuffix (s suffix : string) : string :=
  if HasSuffix s suffix
  then substring 0 (String.length s - String.length suffix) s
  else s.

(** [strings.IndexByte(s, c)]: the index of the first [c] in [s], [None]
    for Go's [-1]. *)
Fixpoint IndexByte (s : string) (c : ascii) : option nat :=
  match s with
  | EmptyString => None
  | String d s' =>
      if Ascii.eqb d c then Some 0%nat
      else match IndexByte s' c with
           | Some i => Some (S i)
           | None => None
           end
  end.

(** [strings.Join(elems, sep)]. *)
Definition Join (elems : list string) (sep : string) : string :=
  String.concat sep elems.

End Strings.

(** ** pkg/crypto *)

Module Crypto.

(** [ssh.PublicKey]: of the interface the code uses [Marshal] only. *)
Record PublicKey := { KeyType : string; Marshal : list byte }.

(** [ssh.Signer]: a private identity, known by the public key it reports. *)
Record Signer := { SignerPublicKey : PublicKey }.

(** [agent.Agent]: the identities the agent offers ([Signers()]). *)
Record Agent := { Signers : list Signer }.

Record SSHEncryptor := {
  publicKeys : list PublicKey;
  privateKeys : list Signer;
  agentClient : option Agent;
  useAgent : bool
}.

(** The outcome of [io.ReadFull(rand.Reader, randomKey)]: the 32 bytes
    read, or the error of the reader. *)
Definition entropy := result (list byte).

(** [SSHEncryptor.Encrypt].  The method has a pointer receiver; the
    encryptor after the call is returned with the result. *)
Definition Encrypt (e : SSHEncryptor) (rnd : entropy) (data : list byte)
  : result string * SSHEncryptor :=
  if (List.length (publicKeys e) =? 0)%nat then
    (Err (New "no public keys available for encryption"), e)
  else
    match rnd with
    | Err err => (Err (Wrapf "failed to generate random key" err), e)
    | Ok randomKey =>
        let encryptedBlocks :=
          map (fun pubKey => Base64.EncodeToString (Marshal pubKey))
              (publicKeys e) in
        let encodedData := Base64.EncodeToString data in
        let result_ :=
          fold_left (fun result_ block => (result_ ++ ":" ++ block)%string)
                    encryptedBlocks encodedData in
        (Ok result_, e)
    end.

(** [SSHEncryptor.Decrypt]. *)
Definition Decrypt (e : SSHEncryptor) (encryptedData : string)
  : result (list byte) * SSHEncryptor :=
  if (List.length (privateKeys e) =? 0)%nat then
    (Err (New "no private keys available for decryption"), e)
  else
    let parts := Strings.Split encryptedData ":"%char in
    if (List.length parts <? 2)%nat then
      (Err (New "invalid encrypted data format"), e)
    else
      match Base64.DecodeString (nth 0 parts "") with
      | (_, Some err) => (Err (Wrapf "failed to decode encrypted data" err), e)
      | (decodedData, None) => (Ok decodedData, e)
      end.

(** [type Encryptor interface]: what the store needs of an encryptor.  The
    randomness an implementation may draw is passed to [Encrypt]. *)
Record Encryptor := {
  Encryptor_Encrypt : entropy -> list byte -> result string;
  Encryptor_Decrypt : string -> result (list byte)
}.

(** [*SSHEncryptor] implements [Encryptor]. *)
Definition SSHEncryptor_Encryptor (e : SSHEncryptor) : Encryptor :=
  {| Encryptor_Encrypt := fun rnd data => fst (Encrypt e rnd data);
     Encryptor_Decrypt := fun s => fst (Decrypt e s) |}.

(** The slot of a recipient in the string [Encrypt] returns: the base64 of
    the marshalled public key.  A signer matches a slot when the slot is the
    one of its public key; the fingerprint of a key is a function of the
    same marshalled bytes. *)
Definition slot_of (k : PublicKey) : string := Base64.EncodeToString (Marshal k).

Definition slots (envelope : string) : list string :=
  tl (Strings.Split envelope ":"%char).

Definition signer_matches (s : Signer) (slot : string) : bool :=
  String.eqb (slot_of (SignerPublicKey s)) slot.

Definition some_signer_matches (signers : list Signer) (envelope : string) : bool :=
  existsb (fun s => existsb (signer_matches s) (slots envelope)) signers.

(** The slots [Encrypt] appends to the data: a colon and the block of each
    recipient. *)
Definition slots_string (blocks : list string) : string :=
  fold_right (fun block acc => (":" ++ block ++ acc)%string) "" blocks.

(** The first colon-separated field of an envelope: the data. *)
Definition data_field (envelope : string) : string :=
  nth 0 (Strings.Split envelope ":"%char) "".

(** The envelope with bit [bit] (0 the lowest) of its character at index
    [pos] flipped; unchanged when it has no such character. *)
Fixpoint flip_bit (pos : nat) (bit : N) (envelope : string) : string :=
  match envelope, pos with
  | EmptyString, _ => EmptyString
  | String c rest, O =>
      String (ascii_of_N (N.lxor (N_of_ascii c) (N.shiftl 1 bit))) rest
  | String c rest, S pos' => String c (flip_bit pos' bit rest)
  end.

End Crypto.

(** ** path/filepath (Unix) *)

Module Filepath.

Definition Separator : ascii := "/"%char.

(** The elements of a path: the substrings between separators. *)
Definition elements (path : string) : list string :=
  Strings.Split path Separator.

Definition rooted (path : string) : bool :=
  match path with
  | String c _ => Ascii.eqb c Separator
  | EmptyString => false
  end.

(** The loop of [Clean] over the elements of the path; [out] is the output
    buffer, last element first.  An empty element and [.] are skipped; [..]
    removes the last real element of the buffer when there is one, is
    dropped at the root of a rooted path, and is kept otherwise. *)
Fixpoint clean_elements (is_rooted : bool) (elems out : list string)
  : list string :=
  match elems with
  | [] => rev out
  | el :: rest =>
      if String.eqb el "" then clean_elements is_rooted rest out
      else if String.eqb el "." then clean_elements is_rooted rest out
      else if String.eqb el ".." then
        match out with
        | top :: out' =>
            if String.eqb top ".."
            then clean_elements is_rooted rest (".." :: out)
            else clean_elements is_rooted rest out'
        | [] =>
            if is_rooted then clean_elements is_rooted rest []
            else clean_elements is_rooted rest [".."]
        end
      else clean_elements is_rooted rest (el :: out)
  end.

(** An element [Clean] keeps: neither empty nor [.]. *)
Definition kept (el : string) : bool :=
  negb (String.eqb el "") && negb (String.eqb el ".").

(** A file name: not empty, not [.] or [..], and with no separator. *)
Definition is_name (el : string) : bool :=
  kept el && negb (String.eqb el "..")
  && match Strings.IndexByte el Separator with None => true | Some _ => false end.

(** [filepath.Clean]. *)
Definition Clean (path : string) : string :=
  if String.eqb path "" then "."
  else
    let out := clean_elements (rooted path) (elements path) [] in
    if rooted path then ("/" ++ Strings.Join out "/")%string
    else match out with
         | [] => "."
         | _ => Strings.Join out "/"
         end.

(** [filepath.Join]: leading empty elements are ignored, the rest is joined
    with the separator and cleaned; the result is empty when every element
    is. *)
Fixpoint Join (elem : list string) : string :=
  match elem with
  | [] => ""
  | e :: rest =>
      if String.eqb e "" then Join rest
      else Clean (Strings.Join elem "/")
  end.

(** [path[:i+1]] for the index [i] of the last separator of [path]; empty
    when [path] has no separator. *)
Fixpoint upto_last_separator (path : string) : string :=
  match path with
  | EmptyString => ""
  | String c rest =>
      let r := upto_last_separator rest in
      if Ascii.eqb c Separator then String c r
      else if String.eqb r "" then "" else String c r
  end.

(** [filepath.Dir]. *)
Definition Dir (path : string) : string := Clean (upto_last_separator path).

(** [filepath.Base]: the last element of the path, trailing separators
    removed; ["."] for the empty path and ["/"] for a path of separators. *)
Definition Base (path : string) : string :=
  if String.eqb path "" then "."
  else match rev (filter (fun el => negb (String.eqb el "")) (elements path)) with
       | el :: _ => el
       | [] => "/"
       end.

End Filepath.

(** ** package os: a file system *)

Module OS.

(** A file-system node: a regular file with its content, or a directory
    with its entries.  Permission bits are kept in the record of calls
    only; symbolic links are not modelled, and an operation fails only for
    what the tree shows (a missing file, a file where a directory is
    needed, a directory where a file is), never for permissions or I/O. *)
#[local] Unset Elimination Schemes.
Inductive node :=
| File (data : list byte)
| Dir (entries : list (string * node)).
#[local] Set Elimination Schemes.

Fixpoint lookup (name : string) (es : list (string * node)) : option node :=
  match es with
  | [] => None
  | (k, n) :: es' => if String.eqb k name then Some n else lookup name es'
  end.

Fixpoint set_entry (name : string) (n : node) (es : list (string * node))
  : list (string * node) :=
  match es with
  | [] => [(name, n)]
  | (k, m) :: es' =>
      if String.eqb k name then (k, n) :: es' else (k, m) :: set_entry name n es'
  end.

Fixpoint remove_entry (name : string) (es : list (string * node))
  : list (string * node) :=
  match es with
  | [] => []
  | (k, m) :: es' =>
      if String.eqb k name then es' else (k, m) :: remove_entry name es'
  end.

(** [info.IsDir()]. *)
Definition is_dir (n : node) : bool :=
  match n with
  | File _ => false
  | Dir _ => true
  end.

Fixpoint distinct (l : list string) : bool :=
  match l with
  | [] => true
  | x :: l' => negb (existsb (String.eqb x) l') && distinct l'
  end.

(** A tree as a file system has it: the names of the entries of every
    directory are distinct. *)
Fixpoint wf_node (n : node) : bool :=
  match n with
  | File _ => true
  | Dir es =>
      distinct (map fst es)
      && (fix all (es : list (string * node)) :=
            match es with
            | [] => true
            | (_, c) :: es' => wf_node c && all es'
            end) es
  end.

(** The file system of the process: the tree under ["/"] and the working
    directory (its elements from the root). *)
Record FS := { tree : node; cwd : list string }.

(** The calls a program makes on the file system, with their arguments. *)
Inductive call :=
| CallMkdirAll (path : string) (perm : N)
| CallWriteFile (name : string) (data : list byte) (perm : N)
| CallReadFile (name : string)
| CallRemove (name : string)
| CallRename (oldpath newpath : string)
| CallCreateTemp (dir pattern : string)
| CallWalk (root : string).

(** The state a store operation runs in: the file system and the record of
    the calls made so far, oldest first. *)
Record World := { fs : FS; calls : list call }.

(** A computation on the world that returns a Go [(T, error)]. *)
Definition IO (A : Type) : Type := World -> result A * World.

Definition ret {A} (a : A) : IO A := fun w => (Ok a, w).
Definition fail {A} (e : error) : IO A := fun w => (Err e, w).
Definition bind {A B} (m : IO A) (k : A -> IO B) : IO B :=
  fun w => match m w with
           | (Ok a, w') => k a w'
           | (Err e, w') => (Err e, w')
           end.

(** [if err != nil { return fmt.Errorf(msg + ": %w", err) }] *)
Definition wrap {A} (msg : string) (m : IO A) : IO A :=
  fun w => match m w with
           | (Ok a, w') => (Ok a, w')
           | (Err e, w') => (Err (Wrapf msg e), w')
           end.

Definition record (c : call) (w : World) : World :=
  {| fs := fs w; calls := calls w ++ [c] |}.

Definition with_tree (t : node) (w : World) : World :=
  {| fs := {| tree := t; cwd := cwd (fs w) |}; calls := calls w |}.

(** The elements from the root of the file a path names: a relative path
    starts at the working directory, [.] and empty elements are dropped and
    [..] goes to the parent (the root is its own parent).  The empty path
    names no file. *)
Definition resolve (f : FS) (path : string) : option (list string) :=
  if String.eqb path "" then None
  else if Filepath.rooted path
       then Some (Filepath.clean_elements true (Filepath.elements path) [])
       else Some (Filepath.clean_elements true
                    (cwd f ++ Filepath.elements path) []).

(** [lstat]: the node at the end of a chain of elements. *)
Fixpoint lstat (elems : list string) (n : node) : errno + node :=
  match elems with
  | [] => inr n
  | el :: rest =>
      match n with
      | File _ => inl ENOTDIR
      | Dir es =>
          match lookup el es with
          | Some c => lstat rest c
          | None => inl ENOENT
          end
      end
  end.

(** [MkdirAll] on the tree: existing directories are entered, missing ones
    created, and a file met on the way is [ENOTDIR]. *)
Fixpoint mkdirAll (elems : list string) (n : node) : errno + node :=
  match n with
  | File _ => inl ENOTDIR
  | Dir es =>
      match elems with
      | [] => inr n
      | el :: rest =>
          match lookup el es with
          | Some c =>
              match mkdirAll rest c with
              | inr c' => inr (Dir (set_entry el c' es))
              | inl e => inl e
              end
          | None =>
              match mkdirAll rest (Dir []) with
              | inr c' => inr (Dir (set_entry el c' es))
              | inl e => inl e
              end
          end
      end
  end.

(** [open(name, O_WRONLY|O_CREATE|O_TRUNC)], write, close: the parent must
    be an existing directory and the name must not be a directory. *)
Fixpoint writeFile (elems : list string) (data : list byte) (n : node)
  : errno + node :=
  match n with
  | File _ => inl ENOTDIR
  | Dir es =>
      match elems with
      | [] => inl EISDIR
      | [el] =>
          match lookup el es with
          | Some (Dir _) => inl EISDIR
          | _ => inr (Dir (set_entry el (File data) es))
          end
      | el :: rest =>
          match lookup el es with
          | Some c =>
              match writeFile rest data c with
              | inr c' => inr (Dir (set_entry el c' es))
              | inl e => inl e
              end
          | None => inl ENOENT
          end
      end
  end.

(** [unlink], then [rmdir]: a file or an empty directory is removed. *)
Fixpoint remove (elems : list string) (n : node) : errno + node :=
  match n with
  | File _ => inl ENOTDIR
  | Dir es =>
      match elems with
      | [] => inl ENOTEMPTY
      | [el] =>
          match lookup el es with
          | Some (Dir (_ :: _)) => inl ENOTEMPTY
          | Some _ => inr (Dir (remove_entry el es))
          | None => inl ENOENT
          end
      | el :: rest =>
          match lookup el es with
          | Some c =>
              match remove rest c with
              | inr c' => inr (Dir (set_entry el c' es))
              | inl e => inl e
              end
          | None => inl ENOENT
          end
      end
  end.

(** [os.MkdirAll(path, perm)]. *)
Definition MkdirAll (path : string) (perm : N) : IO unit :=
  fun w =>
    let w := record (CallMkdirAll path perm) w in
    match resolve (fs w) path with
    | None => (Err (PathError "mkdir" path ENOENT), w)
    | Some elems =>
        match mkdirAll elems (tree (fs w)) with
        | inr t => (Ok tt, with_tree t w)
        | inl e => (Err (PathError "mkdir" path e), w)
        end
    end.

(** [os.WriteFile(name, data, perm)]. *)
Definition WriteFile (name : string) (data : list byte) (perm : N) : IO unit :=
  fun w =>
    let w := record (CallWriteFile name data perm) w in
    match resolve (fs w) name with
    | None => (Err (PathError "open" name ENOENT), w)
    | Some elems =>
        match writeFile elems data (tree (fs w)) with
        | inr t => (Ok tt, with_tree t w)
        | inl e => (Err (PathError "open" name e), w)
        end
    end.

(** [os.ReadFile(name)]. *)
Definition ReadFile (name : string) : IO (list byte) :=
  fun w =>
    let w := record (CallReadFile name) w in
    match resolve (fs w) name with
    | None => (Err (PathError "open" name ENOENT), w)
    | Some elems =>
        match lstat elems (tree (fs w)) with
        | inr (File data) => (Ok data, w)
        | inr (Dir _) => (Err (PathError "read" name EISDIR), w)
        | inl e => (Err (PathError "open" name e), w)
        end
    end.

(** [os.Remove(name)]. *)
Definition Remove (name : string) : IO unit :=
  fun w =>
    let w := record (CallRemove name) w in
    match resolve (fs w) name with
    | None => (Err (PathError "remove" name ENOENT), w)
    | Some elems =>
        match remove elems (tree (fs w)) with
        | inr t => (Ok tt, with_tree t w)
        | inl e => (Err (PathError "remove" name e), w)
        end
    end.

(** [readDirNames] sorts the names of a directory ([slices.Sort]): here the
    entries are sorted by name, in the byte order of Go strings. *)
Fixpoint insert_by_name {A} (x : string * A) (l : list (string * A))
  : list (string * A) :=
  match l with
  | [] => [x]
  | y :: l' =>
      if String.leb (fst x) (fst y) then x :: l else y :: insert_by_name x l'
  end.

Fixpoint sort_by_name {A} (l : list (string * A)) : list (string * A) :=
  match l with
  | [] => []
  | x :: l' => insert_by_name x (sort_by_name l')
  end.


(** What [filepath.Walk] passes to its function at a node: the elements of
    the path below the walk's root, and [info.IsDir()]. *)
Definition visit := (list string * bool)%type.

(** [filepath.walk]: the node itself first, then, for a directory, its
    entries in the order of their names, each walked in turn.  (The visits
    of every entry are computed and put in the order of the names.) *)
Fixpoint walk (rel : list string) (n : node) : list visit :=
  match n with
  | File _ => [(rel, false)]
  | Dir es =>
      (rel, true)
        :: flat_map snd
             (sort_by_name
                ((fix entries (es : list (string * node)) :=
                    match es with
                    | [] => []
                    | (name, c) :: es' =>
                        (name, walk (rel ++ [name]) c) :: entries es'
                    end) es))
  end.

End OS.

(** ** package storage *)

Module Storage.

Import OS.

(** [type Store struct]. *)
Record Store := { rootDir : string; encryptor : Crypto.Encryptor }.

(** [0700] and [0600]. *)
Definition perm_dir : N := 448.
Definition perm_file : N := 384.

(** [NewStore]; [home] is the outcome of [os.UserHomeDir()]. *)
Definition NewStore (home : result string) (rootDir : string)
    (encryptor : Crypto.Encryptor) : IO Store :=
  bind (if String.eqb rootDir "" then
          match home with
          | Err err => fail (Wrapf "failed to get home directory" err)
          | Ok homeDir => ret (Filepath.Join [homeDir; ".passh"])
          end
        else ret rootDir)
       (fun rootDir =>
          bind (wrap "failed to create store directory"
                     (MkdirAll rootDir perm_dir))
               (fun _ => ret {| rootDir := rootDir; encryptor := encryptor |})).

(** [Store.Add]; [rnd] is the randomness the encryptor may draw. *)
Definition Add (s : Store) (rnd : Crypto.entropy) (name : string)
    (password : list byte) : IO unit :=
  match Crypto.Encryptor_Encrypt (encryptor s) rnd password with
  | Err err => fail (Wrapf "encryption failed" err)
  | Ok encryptedData =>
      let dir := Filepath.Dir (Filepath.Join [rootDir s; name]) in
      bind (wrap "failed to create directory structure" (MkdirAll dir perm_dir))
           (fun _ =>
              let filePath := Filepath.Join [rootDir s; (name ++ ".pass")%string] in
              wrap "failed to write password file"
                   (WriteFile filePath (list_byte_of_string encryptedData)
                              perm_file))
  end.

(** [Store.Get]. *)
Definition Get (s : Store) (name : string) : IO (list byte) :=
  let filePath := Filepath.Join [rootDir s; (name ++ ".pass")%string] in
  bind (wrap "failed to read password file" (ReadFile filePath))
       (fun encryptedData =>
          match Crypto.Encryptor_Decrypt (encryptor s)
                  (string_of_list_byte encryptedData) with
          | Err err => fail (Wrapf "decryption failed" err)
          | Ok password => ret password
          end).

(** [info.Name()] at a visit of the walk from [root]. *)
Definition visit_name (root : string) (v : visit) : string :=
  match rev (fst v) with
  | name :: _ => name
  | [] => Filepath.Base root
  end.

(** [filepath.Rel(s.rootDir, path)] for the path of a visit of the walk from
    [s.rootDir]: the elements below the root joined by the separator, and
    ["."] for the root itself. *)
Definition visit_rel (v : visit) : string :=
  match fst v with
  | [] => "."
  | elems => Strings.Join elems "/"
  end.

(** The function [List] passes to [filepath.Walk], as the entries it
    appends at a visit. *)
Definition list_visit (root : string) (v : visit) : list string :=
  if negb (snd v) && Strings.HasSuffix (visit_name root v) ".pass"
  then [Strings.TrimSuffix (visit_rel v) ".pass"]
  else [].

(** [Store.List]: [filepath.Walk(s.rootDir, ...)]; an [Lstat] error of the
    root is passed to the function, which returns it. *)
Definition List (s : Store) : IO (list string) :=
  wrap "failed to list password entries"
    (fun w =>
       let w := record (CallWalk (rootDir s)) w in
       match resolve (fs w) (rootDir s) with
       | None => (Err (PathError "lstat" (rootDir s) ENOENT), w)
       | Some elems =>
           match lstat elems (tree (fs w)) with
           | inl e => (Err (PathError "lstat" (rootDir s) e), w)
           | inr n => (Ok (flat_map (list_visit (rootDir s)) (walk [] n)), w)
           end
       end).

(** [Store.Delete]. *)
Definition Delete (s : Store) (name : string) : IO unit :=
  let filePath := Filepath.Join [rootDir s; (name ++ ".pass")%string] in
  wrap "failed to delete password file" (Remove filePath).

(** The mock encryptor of the store's test. *)
Definition MockEncryptor : Crypto.Encryptor :=
  {| Crypto.Encryptor_Encrypt :=
       fun _ data => Ok (string_of_list_byte data ++ "_encrypted")%string;
     Crypto.Encryptor_Decrypt :=
       fun encryptedData =>
         Ok (list_byte_of_string
               (substring 0 (String.length encryptedData - 10) encryptedData)) |}.

(** A call that creates a temporary file or renames a file. *)
Definition is_temp_or_rename (c : call) : bool :=
  match c with
  | CallRename _ _ | CallCreateTemp _ _ => true
  | _ => false
  end.

(** The name [List] gives the entry whose file is at the elements [p]
    below the root. *)
Definition entry_name (p : list string) : string :=
  Strings.TrimSuffix (Strings.Join p "/") ".pass".

(** A stored entry of the store whose root directory is [d]: a regular file
    below the root whose file name ends in [.pass]. *)
Definition is_entry (d : node) (p : list string) : Prop :=
  exists init name data,
    p = init ++ [name]
    /\ lstat p d = inr (File data)
    /\ Strings.HasSuffix name ".pass" = true.





End Storage.

(** ** Sample data *)

Module Sample.

Import Crypto.

Definition bytes (s : string) : list byte := list_byte_of_string s.

Definition alice_key : PublicKey :=
  {| KeyType := "ssh-ed25519"; Marshal := bytes "alice-key" |}.
Definition bob_key : PublicKey :=
  {| KeyType := "ssh-rsa"; Marshal := bytes "bob-key" |}.

Definition alice : Signer := {| SignerPublicKey := alice_key |}.
Definition bob : Signer := {| SignerPublicKey := bob_key |}.

(** An encryptor with Alice as its only recipient, and no signer. *)
Definition to_alice : SSHEncryptor :=
  {| publicKeys := [alice_key]; privateKeys := [];
     agentClient := None; useAgent := false |}.

(** Encryptors that hold one signer each. *)
Definition with_alice : SSHEncryptor :=
  {| publicKeys := []; privateKeys := [alice];
     agentClient := None; useAgent := false |}.
Definition with_bob : SSHEncryptor :=
  {| publicKeys := []; privateKeys := [bob];
     agentClient := None; useAgent := false |}.

(** An encryptor with no key at all, as [NewSSHEncryptor] returns it. *)
Definition no_keys : SSHEncryptor :=
  {| publicKeys := []; privateKeys := [];
     agentClient := None; useAgent := false |}.

(** Two reads of the random source. *)
Definition key1 : list byte := repeat x00 32.
Definition key2 : list byte := repeat xff 32.

Definition secret : list byte := bytes "secret".

(** What [Encrypt] returns for [secret] and for ["A"] to Alice. *)
Definition secret_envelope : string := "c2VjcmV0:YWxpY2Uta2V5".
Definition A_envelope : string := "QQ==:YWxpY2Uta2V5".

(** An encryptor with Alice's public key and Alice's signer, and a store
    on it rooted at [/store], in a file system where [/store] is an empty
    directory. *)
Definition alice_both : SSHEncryptor :=
  {| publicKeys := [alice_key]; privateKeys := [alice];
     agentClient := None; useAgent := false |}.

Definition store : Storage.Store :=
  {| Storage.rootDir := "/store";
     Storage.encryptor := SSHEncryptor_Encryptor alice_both |}.

Definition empty_store_world : OS.World :=
  {| OS.fs := {| OS.tree := OS.Dir [("store", OS.Dir [])]; OS.cwd := [] |};
     OS.calls := [] |}.

(** The world after the store operations [ops], run in order (a failed
    operation leaves the world as it made it). *)
Definition after {A} (ops : list (OS.IO A)) (w : OS.World) : OS.World :=
  fold_left (fun w op => snd (op w)) ops w.

(** The store after [Add("a", ...)] and [Add("a!", ...)]. *)
Definition world_a_abang : OS.World :=
  after [Storage.Add store (Ok key1) "a" secret;
         Storage.Add store (Ok key2) "a!" secret] empty_store_world.


(** The store of [TestStore], on the mock encryptor, in a fresh temporary
    directory. *)
Definition test_store : Storage.Store :=
  {| Storage.rootDir := "/tmp/passh-test-store";
     Storage.encryptor := Storage.MockEncryptor |}.

Definition test_world : OS.World :=
  {| OS.fs := {| OS.tree := OS.Dir [("tmp", OS.Dir [("passh-test-store", OS.Dir [])])];
                 OS.cwd := [] |};
     OS.calls := [] |}.


End Sample.

(** ** More of the encryptor, the store and the command line *)

Module Base64Chars.

(** A character [Decode] accepts somewhere in its input: one of the
    alphabet, the padding character, or a newline it skips. *)
Definition accepted (c : ascii) : bool :=
  negb (N.eqb (Base64.decodeMap c) 0xff)
  || Base64.is_newline c
  || Ascii.eqb c Base64.padChar.

(** A string with a character that [Decode] accepts nowhere. *)
Fixpoint has_rejected (s : string) : bool :=
  match s with
  | EmptyString => false
  | String c rest => negb (accepted c) || has_rejected rest
  end.

End Base64Chars.

(** ** Trees with file names *)

Module TreeNames.

Import OS.

(** A tree as a file system has it: the name of every entry of every
    directory is a file name (not empty, not [.] or [..], no separator). *)
Fixpoint names_ok (n : node) : bool :=
  match n with
  | File _ => true
  | Dir es =>
      (fix all (es : list (string * node)) :=
         match es with
         | [] => true
         | (k, c) :: es' => Filepath.is_name k && names_ok c && all es'
         end) es
  end.

End TreeNames.

(** ** pkg/crypto: creating an encryptor and loading keys *)

Module KeyLoading.

Import Crypto.

(** What the functions that load keys take from outside the program: the
    environment variable [SSH_AUTH_SOCK], the outcome of
    [net.Dial("unix", socket)] (the agent client made on the connection),
    the reply of the agent to [Signers()], and the parsers of
    [golang.org/x/crypto/ssh].  What the functions print is not modelled. *)
Record Env := {
  SSH_AUTH_SOCK : string;
  Dial : string -> result Agent;
  AgentSigners : Agent -> result (list Signer);
  ParseAuthorizedKey : list byte -> result PublicKey;
  ParsePrivateKey : list byte -> result Signer;
  ParsePrivateKeyWithPassphrase : list byte -> list byte -> result Signer
}.

(** A method of [*SSHEncryptor] that returns an [error]: the error ([None]
    for [nil]) and the encryptor after the call, in the world after it. *)
Definition Method : Type := OS.World -> (option error * SSHEncryptor) * OS.World.

Definition with_agentClient (a : Agent) (e : SSHEncryptor) : SSHEncryptor :=
  {| publicKeys := publicKeys e; privateKeys := privateKeys e;
     agentClient := Some a; useAgent := useAgent e |}.

Definition with_publicKeys (ks : list PublicKey) (e : SSHEncryptor)
  : SSHEncryptor :=
  {| publicKeys := ks; privateKeys := privateKeys e;
     agentClient := agentClient e; useAgent := useAgent e |}.

Definition with_privateKeys (ss : list Signer) (e : SSHEncryptor)
  : SSHEncryptor :=
  {| publicKeys := publicKeys e; privateKeys := ss;
     agentClient := agentClient e; useAgent := useAgent e |}.

(** [SSHEncryptor.connectToAgent]. *)
Definition connectToAgent (env : Env) (e : SSHEncryptor)
  : option error * SSHEncryptor :=
  let socket := SSH_AUTH_SOCK env in
  if String.eqb socket "" then
    (Some (New "SSH_AUTH_SOCK environment variable not set"), e)
  else
    match Dial env socket with
    | Err err =>
        (Some (Wrapf "failed to connect to SSH agent, and could not proceed with agent keys"
                     err), e)
    | Ok conn => (None, with_agentClient conn e)
    end.

(** [NewSSHEncryptor]: an error of [connectToAgent] is printed and
    dropped. *)
Definition NewSSHEncryptor (env : Env) (useAgent : bool) : result SSHEncryptor :=
  let encryptor :=
    {| publicKeys := []; privateKeys := []; agentClient := None;
       useAgent := useAgent |} in
  if useAgent then Ok (snd (connectToAgent env encryptor)) else Ok encryptor.

(** [SSHEncryptor.AddPublicKeyFromFile]. *)
Definition AddPublicKeyFromFile (env : Env) (e : SSHEncryptor) (path : string)
  : Method :=
  fun w =>
    match OS.ReadFile path w with
    | (Err err, w') => ((Some (Wrapf "failed to read public key file" err), e), w')
    | (Ok data, w') =>
        match ParseAuthorizedKey env data with
        | Err err => ((Some (Wrapf "failed to parse public key" err), e), w')
        | Ok publicKey =>
            ((None, with_publicKeys (publicKeys e ++ [publicKey]) e), w')
        end
    end.

(** The fall-back of [AddPrivateKeyFromFile]: loading from the file. *)
Definition addPrivateKeyFromFile_file (env : Env) (e : SSHEncryptor)
    (path : string) (passphrase : list byte) : Method :=
  fun w =>
    match OS.ReadFile path w with
    | (Err err, w') => ((Some (Wrapf "failed to read private key file" err), e), w')
    | (Ok data, w') =>
        let parsed :=
          if (0 <? List.length passphrase)%nat
          then ParsePrivateKeyWithPassphrase env data passphrase
          else ParsePrivateKey env data in
        match parsed with
        | Err err => ((Some (Wrapf "failed to parse private key" err), e), w')
        | Ok signer =>
            ((None, with_privateKeys (privateKeys e ++ [signer]) e), w')
        end
    end.

(** [SSHEncryptor.AddPrivateKeyFromFile]: the signers of the agent when the
    agent is used, connected and offers some; the file otherwise. *)
Definition AddPrivateKeyFromFile (env : Env) (e : SSHEncryptor) (path : string)
    (passphrase : list byte) : Method :=
  fun w =>
    match useAgent e, agentClient e with
    | true, Some client =>
        match AgentSigners env client with
        | Ok signers =>
            if (0 <? List.length signers)%nat
            then ((None, with_privateKeys (privateKeys e ++ signers) e), w)
            else addPrivateKeyFromFile_file env e path passphrase w
        | Err _ => addPrivateKeyFromFile_file env e path passphrase w
        end
    | _, _ => addPrivateKeyFromFile_file env e path passphrase w
    end.

End KeyLoading.

(** ** pkg/cli *)

Module CLI.

Import Crypto KeyLoading.

(** [syscall.Errno.Error()] on Linux. *)
Definition errno_message (e : errno) : string :=
  match e with
  | ENOENT => "no such file or directory"
  | ENOTDIR => "not a directory"
  | EISDIR => "is a directory"
  | ENOTEMPTY => "directory not empty"
  | EEXIST => "file exists"
  end.

(** [err.Error()]. *)
Fixpoint Error (err : error) : string :=
  match err with
  | New msg => msg
  | Wrapf msg cause => (msg ++ ": " ++ Error cause)%string
  | CorruptInputError off =>
      ("illegal base64 data at input byte "
       ++ NilEmpty.string_of_uint (Nat.to_uint off))%string
  | PathError op path e => (op ++ " " ++ path ++ ": " ++ errno_message e)%string
  | ErrUnexpectedEOF => "unexpected EOF"
  end.

(** [isPassphraseError]; [None] is [nil]. *)
Definition isPassphraseError (err : option error) : bool :=
  match err with
  | None => false
  | Some err =>
      String.eqb (Error err) "ssh: this private key is passphrase protected"
      || String.eqb (Error err)
           "failed to parse private key: ssh: this private key is passphrase protected"
  end.

(** The defaults of [root.go]; [home] is [os.Getenv("HOME")]. *)
Definition defaultSSHDir (home : string) : string :=
  Filepath.Join [home; ".ssh"].
Definition defaultSSHPrivateKeys : list string :=
  ["id_ed25519"; "id_ecdsa"; "id_rsa"].
Definition defaultSSHPublicKeys : list string :=
  ["id_ed25519.pub"; "id_ecdsa.pub"; "id_rsa.pub"].

(** [_, err := os.Stat(path); err == nil]. *)
Definition Stat_ok (f : OS.FS) (path : string) : bool :=
  match OS.resolve f path with
  | Some elems =>
      match OS.lstat elems (OS.tree f) with
      | inr _ => true
      | inl _ => false
      end
  | None => false
  end.

(** The loop of [setupEncryptor] over the default names: the path of the
    first name that exists in the directory, empty when none does. *)
Fixpoint firstExisting (f : OS.FS) (dir : string) (names : list string)
  : string :=
  match names with
  | [] => ""
  | name :: rest =>
      let path := Filepath.Join [dir; name] in
      if Stat_ok f path then path else firstExisting f dir rest
  end.

Definition noSSHKeysMessage : string :=
  "No SSH keys found. Please create SSH keys before using passh:

To create a new Ed25519 key (recommended):
  ssh-keygen -t ed25519

To add your key to the SSH agent:
  ssh-add ~/.ssh/id_ed25519

After creating keys, run passh again.".

Definition noSSHMessage : string :=
  "SSH is not installed or not in PATH. Please install SSH before using passh:
  - On Debian/Ubuntu: sudo apt-get install openssh-client
  - On Fedora/RHEL: sudo dnf install openssh-clients
  - On macOS: brew install openssh
  - On Windows: Install Git for Windows or OpenSSH via Windows Optional Features".

(** [checkSSHEnvironment]; [lookPath] tells whether [exec.LookPath("ssh")]
    found the program. *)
Definition checkSSHEnvironment (lookPath : bool) (home : string) (f : OS.FS)
  : option error :=
  if negb lookPath then Some (New noSSHMessage)
  else
    let keysExist :=
      existsb (fun keyName =>
                 Stat_ok f (Filepath.Join [defaultSSHDir home; keyName]))
              defaultSSHPrivateKeys in
    if negb keysExist then Some (New noSSHKeysMessage) else None.

(** [setupEncryptor]: the encryptor it stores in the context of the
    command, or the error; [tty] is the outcome of [term.ReadPassword]
    should the passphrase be asked for. *)
Definition setupEncryptor (env : Env) (home : string)
    (publicKeyPath privateKeyPath : string) (noAgent : bool)
    (tty : result (list byte)) : OS.IO SSHEncryptor :=
  fun w =>
    match NewSSHEncryptor env (negb noAgent) with
    | Err err => (Err (Wrapf "failed to create encryptor" err), w)
    | Ok encryptor =>
        let publicKeyPath :=
          if String.eqb publicKeyPath ""
          then firstExisting (OS.fs w) (defaultSSHDir home) defaultSSHPublicKeys
          else publicKeyPath in
        let privateKeyPath :=
          if String.eqb privateKeyPath ""
          then firstExisting (OS.fs w) (defaultSSHDir home) defaultSSHPrivateKeys
          else privateKeyPath in
        if String.eqb publicKeyPath "" then
          (Err (New "no SSH public key found, specify with --public-key"), w)
        else if String.eqb privateKeyPath "" then
          (Err (New "no SSH private key found, specify with --private-key"), w)
        else
          match AddPublicKeyFromFile env encryptor publicKeyPath w with
          | ((Some err, _), w1) => (Err (Wrapf "failed to load public key" err), w1)
          | ((None, encryptor), w1) =>
              match AddPrivateKeyFromFile env encryptor privateKeyPath [] w1 with
              | ((None, encryptor), w2) => (Ok encryptor, w2)
              | ((Some err, encryptor), w2) =>
                  if isPassphraseError (Some err) then
                    match tty with
                    | Err err => (Err (Wrapf "failed to read passphrase" err), w2)
                    | Ok passphrase =>
                        match AddPrivateKeyFromFile env encryptor privateKeyPath
                                passphrase w2 with
                        | ((Some err, _), w3) =>
                            (Err (Wrapf "failed to load private key with passphrase"
                                        err), w3)
                        | ((None, encryptor), w3) => (Ok encryptor, w3)
                        end
                    end
                  else (Err (Wrapf "failed to load private key" err), w2)
              end
          end
    end.

(** [PersistentPreRunE] of the root command; [None] when the command is
    [completion] or [help], for which nothing is set up. *)
Definition preRun (env : Env) (lookPath : bool) (home : string)
    (cmdName publicKeyPath privateKeyPath : string) (noAgent : bool)
    (tty : result (list byte)) : OS.IO (option SSHEncryptor) :=
  fun w =>
    if String.eqb cmdName "completion" || String.eqb cmdName "help" then
      (Ok None, w)
    else
      match checkSSHEnvironment lookPath home (OS.fs w) with
      | Some err => (Err err, w)
      | None =>
          match setupEncryptor env home publicKeyPath privateKeyPath noAgent
                  tty w with
          | (Ok e, w') => (Ok (Some e), w')
          | (Err err, w') => (Err err, w')
          end
      end.

(** [os.UserHomeDir()] on Unix. *)
Definition UserHomeDir (home : string) : result string :=
  if String.eqb home "" then Err (New "$HOME is not defined") else Ok home.

(** [getStore]: the store on the encryptor of the context and the
    directory of the [--store] flag. *)
Definition getStore (home storeDir : string) (encryptor : SSHEncryptor)
  : OS.IO Storage.Store :=
  Storage.NewStore (UserHomeDir home) storeDir (SSHEncryptor_Encryptor encryptor).

(** What a function does: it returns, or the run-time system stops the
    program ([panic]). *)
Inductive outcome (A : Type) :=
| Done (r : result A)
| Panic (msg : string).
Arguments Done {A} r.
Arguments Panic {A} msg.

Definition lowerChars : string := "abcdefghijklmnopqrstuvwxyz".
Definition upperChars : string := "ABCDEFGHIJKLMNOPQRSTUVWXYZ".
Definition numberChars : string := "0123456789".
Definition symbolChars : string := "!@#$%^&*()-_=+[]{}|;:,.<>?".

(** [charset] of [newGenerateCmd]. *)
Definition charset (noSymbols : bool) : string :=
  let charset := (lowerChars ++ upperChars ++ numberChars)%string in
  if negb noSymbols then (charset ++ symbolChars)%string else charset.

(** The loop of [newGenerateCmd] from index [i] for [n] more bytes;
    [draws i] is the outcome of the call of [rand.Int] at index [i]. *)
Fixpoint fillPassword (charset : string) (draws : nat -> result N) (i n : nat)
  : outcome (list byte) :=
  match n with
  | O => Done (Ok [])
  | S n' =>
      match draws i with
      | Err err => Done (Err (Wrapf "failed to generate random number" err))
      | Ok k =>
          match String.get (N.to_nat k) charset with
          | None => Panic "index out of range"
          | Some c =>
              match fillPassword charset draws (S i) n' with
              | Done (Ok passwordBytes) =>
                  Done (Ok (byte_of_ascii c :: passwordBytes))
              | other => other
              end
          end
      end
  end.

(** The password of [newGenerateCmd]: [make([]byte, length)] stops the
    program when [length] is negative. *)
Definition generatePassword (length : Z) (noSymbols : bool)
    (draws : nat -> result N) : outcome (list byte) :=
  if (length <? 0)%Z then Panic "makeslice: len out of range"
  else fillPassword (charset noSymbols) draws 0 (Z.to_nat length).

(** The function [RunE] of [newGenerateCmd]: what it prints, in the world
    it leaves. *)
Definition runGenerate (home storeDir : string) (encryptor : SSHEncryptor)
    (name : string) (length : Z) (noSymbols : bool)
    (draws : nat -> result N) (rnd : entropy)
  : OS.World -> outcome (list byte) * OS.World :=
  fun w =>
    match generatePassword length noSymbols draws with
    | Panic msg => (Panic msg, w)
    | Done (Err err) => (Done (Err err), w)
    | Done (Ok password) =>
        match getStore home storeDir encryptor w with
        | (Err err, w1) => (Done (Err err), w1)
        | (Ok store, w1) =>
            match Storage.Add store rnd name password w1 with
            | (Err err, w2) => (Done (Err err), w2)
            | (Ok _, w2) => (Done (Ok password), w2)
            end
        end
    end.

End CLI.

(** ** Sample data for the command line *)

Module Fixture.

Import Crypto KeyLoading.

(** Parsers that take any non-empty file for a key whose marshalled form is
    the file, except that a private key file starting with [ENCRYPTED] asks
    for a passphrase; no agent socket. *)
Definition key_of (data : list byte) : PublicKey :=
  {| KeyType := "ssh-ed25519"; Marshal := data |}.

Definition parse_private (data : list byte) : result Signer :=
  match data with
  | [] => Err (New "ssh: no key found")
  | _ =>
      if String.prefix "ENCRYPTED" (string_of_list_byte data)
      then Err (New "ssh: this private key is passphrase protected")
      else Ok {| SignerPublicKey := key_of data |}
  end.

Definition env : Env :=
  {| SSH_AUTH_SOCK := "";
     Dial := fun _ => Err (New "dial unix: no such file or directory");
     AgentSigners := fun a => Ok (Signers a);
     ParseAuthorizedKey :=
       fun data => match data with
                   | [] => Err (New "ssh: no key found")
                   | _ => Ok (key_of data)
                   end;
     ParsePrivateKey := parse_private;
     ParsePrivateKeyWithPassphrase :=
       fun data _ => Ok {| SignerPublicKey := key_of data |} |}.

(** The same with an agent on [/tmp/agent.sock] that offers Alice's key. *)
Definition env_agent : Env :=
  {| SSH_AUTH_SOCK := "/tmp/agent.sock";
     Dial := fun _ => Ok {| Signers := [Sample.alice] |};
     AgentSigners := fun a => Ok (Signers a);
     ParseAuthorizedKey := ParseAuthorizedKey env;
     ParsePrivateKey := ParsePrivateKey env;
     ParsePrivateKeyWithPassphrase := ParsePrivateKeyWithPassphrase env |}.

(** A home directory with an RSA and an Ed25519 key pair, and a
    passphrase-protected key. *)
Definition home_world : OS.World :=
  {| OS.fs :=
       {| OS.tree :=
            OS.Dir
              [("home",
                OS.Dir
                  [("alice",
                    OS.Dir
                      [(".ssh",
                        OS.Dir
                          [("id_rsa", OS.File (Sample.bytes "rsa-private"));
                           ("id_rsa.pub", OS.File (Sample.bytes "rsa-public"));
                           ("id_ed25519", OS.File (Sample.bytes "ed-private"));
                           ("id_ed25519.pub", OS.File (Sample.bytes "ed-public"));
                           ("locked", OS.File (Sample.bytes "ENCRYPTED key"))])])])];
          OS.cwd := ["home"; "alice"] |};
     OS.calls := [] |}.

(** A fresh encryptor, without and with the agent. *)
Definition fresh : SSHEncryptor :=
  {| publicKeys := []; privateKeys := []; agentClient := None;
     useAgent := false |}.
Definition fresh_agent : SSHEncryptor :=
  {| publicKeys := []; privateKeys := [];
     agentClient := Some {| Signers := [Sample.alice] |}; useAgent := true |}.

(** Draws of [rand.Int]: the index of the call, taken modulo 62. *)
Definition draws (i : nat) : result N := Ok (N.of_nat (i mod 62)).

End Fixture.

(** ** Tactics *)

(** Division and remainder by constants are left to [lia]. *)
Ltac div_lia :=
  Z.to_euclidean_division_equations; lia.

(** Every call of a list is the [MkdirAll] or the [WriteFile] expected. *)
Ltac only_mkdir_write :=
  repeat (apply Forall_cons;
          [first [left; reflexivity | right; eexists; reflexivity]|]);
  apply Forall_nil.

(** * Properties *)

(** ** Facts about base64 *)

Module Base64Facts.

Import Base64.
Local Open Scope N_scope.

Example encode_foobar :
  EncodeToString (list_byte_of_string "foobar") = "Zm9vYmFy"
  /\ EncodeToString (list_byte_of_string "fooba") = "Zm9vYmE="
  /\ EncodeToString (list_byte_of_string "foob") = "Zm9vYg=="
  /\ EncodeToString [] = "".
Proof. repeat split; vm_compute; reflexivity. Qed.

Example decode_foobar :
  DecodeString "Zm9vYmFy" = (list_byte_of_string "foobar", None)
  /\ DecodeString "Zm9vYmE=" = (list_byte_of_string "fooba", None)
  /\ DecodeString "Zm9vYg==" = (list_byte_of_string "foob", None)
  /\ DecodeString "Zm9vYg=" = (list_byte_of_string "foo", Some (CorruptInputError 7))
  /\ DecodeString "Zm9vYg" = (list_byte_of_string "foo", Some (CorruptInputError 4))
  /\ DecodeString "Zm9v!" = (list_byte_of_string "foo", Some (CorruptInputError 4))
  /\ DecodeString "" = ([], None).
Proof. repeat split; vm_compute; reflexivity. Qed.

(** An [or] of two numbers with no common bit is their sum. *)
Lemma lor_add (a b k : N) : a mod 2 ^ k = 0 -> b < 2 ^ k -> N.lor a b = a + b.
Proof.
  intros Ha Hb.
  assert (Hdisj : N.land a b = 0).
  { apply N.bits_inj. intro n. rewrite N.land_spec, N.bits_0.
    destruct (N.lt_ge_cases n k) as [Hn|Hn].
    - rewrite <- (N.mod_pow2_bits_low a k n Hn), Ha, N.bits_0. reflexivity.
    - destruct (N.eq_dec b 0) as [->|Hb0].
      + rewrite N.bits_0. apply andb_false_r.
      + rewrite (N.bits_above_log2 b n), andb_false_r; [reflexivity|].
        apply N.log2_lt_pow2 in Hb; lia. }
  rewrite <- N.lxor_lor by exact Hdisj.
  symmetry. apply N.add_nocarry_lxor. exact Hdisj.
Qed.

Lemma sextet_spec (val k : N) : sextet val k = (val / 2 ^ k) mod 64.
Proof.
  unfold sextet. rewrite N.shiftr_div_pow2.
  change 0x3F with (N.ones 6). rewrite N.land_ones. reflexivity.
Qed.

Lemma sextet_lt (val k : N) : sextet val k < 64.
Proof. rewrite sextet_spec. apply N.mod_lt. discriminate. Qed.

Lemma to_N_lt (b : byte) : Byte.to_N b < 256.
Proof. pose proof (Byte.to_N_bounded b). lia. Qed.

Lemma to_byte_to_N (b : byte) : to_byte (Byte.to_N b) = b.
Proof.
  unfold to_byte. rewrite N.mod_small by apply to_N_lt.
  rewrite <- ascii_of_byte_via_N. apply byte_of_ascii_of_byte.
Qed.

Lemma pack3 (a b c : N) :
  a < 256 -> b < 256 -> c < 256 ->
  N.lor (N.lor (N.shiftl a 16) (N.shiftl b 8)) c = a * 65536 + b * 256 + c.
Proof.
  intros Ha Hb Hc. rewrite !N.shiftl_mul_pow2.
  change (2 ^ 16) with 65536. change (2 ^ 8) with 256.
  rewrite (lor_add (a * 65536) (b * 256) 16).
  - apply (lor_add _ c 8); change (2 ^ 8) with 256; [|exact Hc].
    zify. div_lia.
  - change (2 ^ 16) with 65536. zify. div_lia.
  - change (2 ^ 16) with 65536. lia.
Qed.

Lemma pack4 (s0 s1 s2 s3 : N) :
  s0 < 64 -> s1 < 64 -> s2 < 64 -> s3 < 64 ->
  N.lor (N.lor (N.lor (N.shiftl s0 18) (N.shiftl s1 12)) (N.shiftl s2 6)) s3
  = s0 * 262144 + s1 * 4096 + s2 * 64 + s3.
Proof.
  intros H0 H1 H2 H3. rewrite !N.shiftl_mul_pow2.
  change (2 ^ 18) with 262144. change (2 ^ 12) with 4096. change (2 ^ 6) with 64.
  rewrite (lor_add (s0 * 262144) (s1 * 4096) 18).
  - rewrite (lor_add _ (s2 * 64) 12).
    + apply (lor_add _ s3 6); change (2 ^ 6) with 64; [|exact H3].
      zify. div_lia.
    + change (2 ^ 12) with 4096. zify. div_lia.
    + change (2 ^ 12) with 4096. lia.
  - change (2 ^ 18) with 262144. zify. div_lia.
  - change (2 ^ 18) with 262144. lia.
Qed.

Lemma to_byte_eq (v : N) (b : byte) : v mod 256 = Byte.to_N b -> to_byte v = b.
Proof.
  intro H. rewrite <- (to_byte_to_N b). unfold to_byte.
  rewrite H, N.mod_small by apply to_N_lt. reflexivity.
Qed.

(** The bytes of a full quantum are the three bytes it was made of. *)
Lemma quantum_bytes_3 (a b c : byte) :
  let val := N.lor (N.lor (N.shiftl (Byte.to_N a) 16)
                          (N.shiftl (Byte.to_N b) 8)) (Byte.to_N c) in
  quantum_bytes [sextet val 18; sextet val 12; sextet val 6; sextet val 0]
  = [a; b; c].
Proof.
  intro val. unfold quantum_bytes. cbn [nth List.length Nat.pred firstn].
  pose proof (to_N_lt a) as Ha. pose proof (to_N_lt b) as Hb.
  pose proof (to_N_lt c) as Hc.
  rewrite pack4 by apply sextet_lt.
  assert (Hval : val = Byte.to_N a * 65536 + Byte.to_N b * 256 + Byte.to_N c)
    by (apply pack3; assumption).
  rewrite !sextet_spec, !N.shiftr_div_pow2, Hval.
  change (2 ^ 18) with 262144. change (2 ^ 12) with 4096.
  change (2 ^ 16) with 65536. change (2 ^ 8) with 256.
  change (2 ^ 6) with 64. change (2 ^ 0) with 1.
  repeat f_equal; apply to_byte_eq; zify; div_lia.
Qed.

Lemma quantum_bytes_2 (a b : byte) :
  let val := N.lor (N.shiftl (Byte.to_N a) 16) (N.shiftl (Byte.to_N b) 8) in
  quantum_bytes [sextet val 18; sextet val 12; sextet val 6] = [a; b].
Proof.
  intro val. unfold quantum_bytes. cbn [nth List.length Nat.pred firstn].
  pose proof (to_N_lt a) as Ha. pose proof (to_N_lt b) as Hb.
  rewrite pack4 by (try apply sextet_lt; reflexivity).
  assert (Hval : val = Byte.to_N a * 65536 + Byte.to_N b * 256 + 0).
  { rewrite <- (pack3 _ _ 0) by (assumption || reflexivity).
    rewrite N.lor_0_r. reflexivity. }
  rewrite !sextet_spec, !N.shiftr_div_pow2, Hval.
  change (2 ^ 18) with 262144. change (2 ^ 12) with 4096.
  change (2 ^ 16) with 65536. change (2 ^ 8) with 256.
  change (2 ^ 6) with 64.
  repeat f_equal; apply to_byte_eq; zify; div_lia.
Qed.

Lemma quantum_bytes_1 (a : byte) :
  let val := N.shiftl (Byte.to_N a) 16 in
  quantum_bytes [sextet val 18; sextet val 12] = [a].
Proof.
  intro val. unfold quantum_bytes. cbn [nth List.length Nat.pred firstn].
  pose proof (to_N_lt a) as Ha.
  rewrite pack4 by (try apply sextet_lt; reflexivity).
  assert (Hval : val = Byte.to_N a * 65536) by apply N.shiftl_mul_pow2.
  rewrite !sextet_spec, !N.shiftr_div_pow2, Hval.
  change (2 ^ 18) with 262144. change (2 ^ 12) with 4096.
  change (2 ^ 16) with 65536.
  repeat f_equal; apply to_byte_eq; zify; div_lia.
Qed.

Lemma lt_64_in (i : N) : i < 64 -> In i (map N.of_nat (seq 0 64)).
Proof.
  intro H. rewrite <- (N2Nat.id i). apply in_map. apply in_seq. lia.
Qed.

(** [decodeMap] inverts [encode] on the 64 sextets. *)
Lemma decodeMap_encode (i : N) : i < 64 -> decodeMap (encode i) = i.
Proof.
  intro H. apply lt_64_in in H.
  assert (Hall : forallb (fun i => decodeMap (encode i) =? i)
                         (map N.of_nat (seq 0 64)) = true)
    by (vm_compute; reflexivity).
  rewrite forallb_forall in Hall. apply N.eqb_eq, Hall, H.
Qed.

(** No character of the alphabet is the colon. *)
Lemma encode_not_colon (i : N) : i < 64 -> Ascii.eqb (encode i) ":"%char = false.
Proof.
  intro H. apply lt_64_in in H.
  assert (Hall : forallb (fun i => negb (Ascii.eqb (encode i) ":"%char))
                         (map N.of_nat (seq 0 64)) = true)
    by (vm_compute; reflexivity).
  rewrite forallb_forall in Hall. apply negb_true_iff, Hall, H.
Qed.

(** One step of the decoder on a character of the alphabet. *)
Lemma decode_from_encode (s : N) (rest : string) (si : nat) (dbuf : list N) :
  s < 64 ->
  decode_from (String (encode s) rest) si dbuf
  = if (List.length (dbuf ++ [s]) =? 4)%nat
    then let '(bs, e) := decode_from rest (S si) [] in
         (quantum_bytes (dbuf ++ [s]) ++ bs, e)
    else decode_from rest (S si) (dbuf ++ [s]).
Proof.
  intro H. cbn [decode_from]. rewrite (decodeMap_encode s H).
  destruct (N.eqb_spec s 0xff) as [E|_]; [lia|]. reflexivity.
Qed.

(** Lists three elements at a time. *)
Lemma list_ind3 {A} (P : list A -> Prop) :
  P [] -> (forall a, P [a]) -> (forall a b, P [a; b]) ->
  (forall a b c l, P l -> P (a :: b :: c :: l)) ->
  forall l, P l.
Proof.
  intros H0 H1 H2 H3.
  assert (H : forall l, P l /\ (forall a, P (a :: l)) /\ (forall a b, P (a :: b :: l))).
  { induction l as [|x l IH].
    - repeat split; auto.
    - destruct IH as (IH0 & IH1 & IH2). repeat split; auto. }
  intro l. apply H.
Qed.

Lemma decode_from_Encode (src : list byte) :
  forall si, decode_from (Encode src) si [] = (src, None).
Proof.
  induction src as [|a|a b|a b c rest IH] using list_ind3; intro si.
  - reflexivity.
  - cbn [Encode].
    rewrite !decode_from_encode by apply sextet_lt. cbn [app List.length Nat.eqb].
    change (decode_from (String padChar (String padChar "")) (S (S si)) ?d)
      with (quantum_bytes d, @None error).
    rewrite (quantum_bytes_1 a). reflexivity.
  - cbn [Encode].
    rewrite !decode_from_encode by apply sextet_lt. cbn [app List.length Nat.eqb].
    change (decode_from (String padChar "") (S (S (S si))) ?d)
      with (quantum_bytes d, @None error).
    rewrite (quantum_bytes_2 a b). reflexivity.
  - cbn [Encode].
    rewrite !decode_from_encode by apply sextet_lt. cbn [app List.length Nat.eqb].
    rewrite IH, (quantum_bytes_3 a b c). reflexivity.
Qed.

(** Decoding an encoding gives the bytes back, with no error. *)
Lemma DecodeString_EncodeToString (src : list byte) :
  DecodeString (EncodeToString src) = (src, None).
Proof. apply decode_from_Encode. Qed.

End Base64Facts.

(** ** Facts about strings *)

Module StringFacts.

Import Strings.

Lemma append_assoc (a b c : string) : ((a ++ b) ++ c = a ++ (b ++ c))%string.
Proof. induction a as [|x a IH]; cbn; [reflexivity | now rewrite IH]. Qed.

Lemma append_nil_r (a : string) : (a ++ "")%string = a.
Proof. induction a as [|x a IH]; cbn; [reflexivity | now rewrite IH]. Qed.

Lemma Split_not_nil (s : string) (sep : ascii) : Split s sep <> [].
Proof.
  destruct s as [|c s]; cbn; [discriminate|].
  destruct (Ascii.eqb c sep); [discriminate|].
  destruct (Split s sep); discriminate.
Qed.

(** A string with no separator is the only field of its split. *)
Lemma Split_no_sep (s : string) (sep : ascii) :
  IndexByte s sep = None -> Split s sep = [s].
Proof.
  induction s as [|c s IH]; cbn; [reflexivity|].
  destruct (Ascii.eqb c sep); [discriminate|].
  destruct (IndexByte s sep); [discriminate|].
  intros _. rewrite IH; reflexivity.
Qed.

(** The split of [s ++ sep ++ rest] when [s] has no separator. *)
Lemma Split_app (s rest : string) (sep : ascii) :
  IndexByte s sep = None ->
  Split (s ++ String sep rest) sep = s :: Split rest sep.
Proof.
  induction s as [|c s IH]; cbn.
  - intros _. rewrite Ascii.eqb_refl. reflexivity.
  - destruct (Ascii.eqb c sep); [discriminate|].
    destruct (IndexByte s sep); [discriminate|].
    intros _. rewrite IH; reflexivity.
Qed.

(** A string with a separator has at least two fields. *)
Lemma Split_sep_length (s : string) (sep : ascii) :
  IndexByte s sep <> None -> (2 <= List.length (Split s sep))%nat.
Proof.
  induction s as [|c s IH]; cbn; [congruence|].
  destruct (Ascii.eqb c sep).
  - intros _. pose proof (Split_not_nil s sep).
    destruct (Split s sep); [congruence | cbn; lia].
  - destruct (IndexByte s sep); [|congruence].
    intros _. specialize (IH ltac:(discriminate)).
    destruct (Split s sep) as [|h t]; cbn in *; lia.
Qed.

Lemma IndexByte_app_None (a b : string) (c : ascii) :
  IndexByte a c = None -> IndexByte b c = None -> IndexByte (a ++ b) c = None.
Proof.
  induction a as [|x a IH]; cbn; [auto|].
  destruct (Ascii.eqb x c); [discriminate|].
  destruct (IndexByte a c); [discriminate|].
  intros _ Hb. rewrite IH; auto.
Qed.

End StringFacts.

(** ** The encryptor *)

Module CryptoFacts.

Import Strings Base64 Crypto Base64Facts StringFacts.

(** An encoding has no colon. *)
Lemma Encode_no_colon (src : list byte) : IndexByte (Encode src) ":"%char = None.
Proof.
  induction src as [|a|a b|a b c rest IH] using list_ind3;
    cbn [Encode IndexByte]; rewrite ?encode_not_colon by apply sextet_lt;
    rewrite ?IH; reflexivity.
Qed.

Lemma slots_string_cons (b : string) (bs : list string) :
  slots_string (b :: bs) = String ":" (b ++ slots_string bs).
Proof. reflexivity. Qed.

Lemma fold_left_blocks (blocks : list string) (init : string) :
  fold_left (fun result_ block => (result_ ++ ":" ++ block)%string) blocks init
  = (init ++ slots_string blocks)%string.
Proof.
  revert init. induction blocks as [|b blocks IH]; intro init; cbn.
  - now rewrite append_nil_r.
  - rewrite IH. change (String ":" (b ++ slots_string blocks))%string
      with (":" ++ (b ++ slots_string blocks))%string.
    now rewrite !append_assoc.
Qed.

(** [Encrypt] succeeds when there is a recipient and the random key was
    read, and returns the encoded data followed by the slots. *)
Lemma Encrypt_ok (e : SSHEncryptor) (key data : list byte) :
  publicKeys e <> [] ->
  Encrypt e (Ok key) data
  = (Ok (EncodeToString data
         ++ slots_string (map slot_of (publicKeys e)))%string, e).
Proof.
  intro H. unfold Encrypt.
  destruct (publicKeys e) as [|k ks] eqn:E; [congruence|].
  cbn [List.length Nat.eqb]. rewrite fold_left_blocks. reflexivity.
Qed.

(** Whatever [Encrypt] returns without error has this form. *)
Lemma Encrypt_inv (e : SSHEncryptor) (rnd : entropy) (data : list byte)
    (envelope : string) :
  fst (Encrypt e rnd data) = Ok envelope ->
  publicKeys e <> []
  /\ envelope = (EncodeToString data
                 ++ slots_string (map slot_of (publicKeys e)))%string.
Proof.
  unfold Encrypt. destruct (publicKeys e) as [|k ks] eqn:E; cbn [List.length Nat.eqb].
  - discriminate.
  - destruct rnd as [key|err]; cbn [fst]; [|discriminate].
    rewrite fold_left_blocks. intro H. injection H as <-.
    split; [discriminate | reflexivity].
Qed.

(** The fields of an envelope made by [Encrypt]. *)
Lemma Split_envelope (data : list byte) (k : PublicKey) (ks : list PublicKey) :
  Split (EncodeToString data ++ slots_string (map slot_of (k :: ks))) ":"%char
  = EncodeToString data
      :: Split (slot_of k ++ slots_string (map slot_of ks)) ":"%char.
Proof.
  cbn [map]. rewrite slots_string_cons.
  apply Split_app, Encode_no_colon.
Qed.

(** [Decrypt] on a string with a colon, by an encryptor with a signer:
    the decoding of the data field, or the decoding error. *)
Lemma Decrypt_with_colon (d : SSHEncryptor) (envelope : string) :
  privateKeys d <> [] ->
  IndexByte envelope ":"%char <> None ->
  Decrypt d envelope
  = match DecodeString (data_field envelope) with
    | (_, Some err) => (Err (Wrapf "failed to decode encrypted data" err), d)
    | (decodedData, None) => (Ok decodedData, d)
    end.
Proof.
  intros Hk Hc. unfold Decrypt, data_field.
  destruct (privateKeys d) as [|s ss]; [congruence|]. cbn [List.length Nat.eqb].
  apply Split_sep_length in Hc.
  destruct (Nat.ltb_spec (List.length (Split envelope ":"%char)) 2) as [L|_]; [lia|].
  reflexivity.
Qed.

Lemma slots_string_colon (k : string) (ks : list string) :
  IndexByte (slots_string (k :: ks)) ":"%char <> None.
Proof. cbn. discriminate. Qed.

Lemma IndexByte_app_l (a b : string) (c : ascii) :
  IndexByte b c <> None -> IndexByte (a ++ b) c <> None.
Proof.
  intro H. induction a as [|x a IH]; cbn; [exact H|].
  destruct (Ascii.eqb x c); [discriminate|].
  destruct (IndexByte (a ++ b) c); [discriminate | congruence].
Qed.

Lemma data_field_app (a rest : string) :
  data_field (a ++ String ":" rest) = data_field a.
Proof.
  unfold data_field. induction a as [|c a IH]; cbn [append Split].
  - rewrite Ascii.eqb_refl. reflexivity.
  - destruct (Ascii.eqb c ":"); [reflexivity|].
    pose proof (Split_not_nil (a ++ String ":" rest) ":"%char) as N1.
    pose proof (Split_not_nil a ":"%char) as N2.
    destruct (Split (a ++ String ":" rest) ":"%char); [congruence|].
    destruct (Split a ":"%char); [congruence|].
    cbn [nth] in *. now rewrite IH.
Qed.

Lemma flip_bit_app (pos : nat) (bit : N) (a b : string) :
  (pos < String.length a)%nat ->
  flip_bit pos bit (a ++ b) = (flip_bit pos bit a ++ b)%string.
Proof.
  revert pos. induction a as [|c a IH]; intros pos H; cbn in H; [lia|].
  destruct pos as [|pos]; cbn; [reflexivity|].
  rewrite IH by lia. reflexivity.
Qed.

End CryptoFacts.

(** ** Claims about the encryptor *)

Module CryptoClaims.

Import Strings Base64 Crypto Base64Facts StringFacts CryptoFacts.

(** C1.  For every non-empty plaintext [P] and every encryptor [e] with at
    least one registered recipient public key, [Encrypt] returns an envelope
    (once the random key was read), and whatever envelope [Encrypt] returns
    for [P], [Decrypt] on it by an encryptor [d] holding a signer whose
    public key is among the recipients returns exactly [P]. *)
Theorem Encrypt_Decrypt_roundtrip
    (e d : SSHEncryptor) (P : list byte) (s : Signer) :
  P <> [] ->
  publicKeys e <> [] ->
  In s (privateKeys d) ->
  In (SignerPublicKey s) (publicKeys e) ->
  (forall key, exists envelope, Encrypt e (Ok key) P = (Ok envelope, e))
  /\ (forall rnd envelope,
        fst (Encrypt e rnd P) = Ok envelope ->
        Decrypt d envelope = (Ok P, d)).
Proof.
  intros _ Hpub Hs _. split.
  - intro key. eexists. apply Encrypt_ok, Hpub.
  - intros rnd envelope H. apply Encrypt_inv in H as [_ ->].
    destruct (publicKeys e) as [|k ks]; [congruence|].
    rewrite Decrypt_with_colon.
    + unfold data_field. rewrite Split_envelope. cbn [nth].
      rewrite DecodeString_EncodeToString. reflexivity.
    + intro E. rewrite E in Hs. exact Hs.
    + apply IndexByte_app_l, slots_string_colon.
Qed.

(** C7.  For every plaintext, [Encrypt] by an encryptor with no registered
    recipient public key fails with the error "no public keys available for
    encryption", whatever the random source gives, and the encryptor is
    unchanged. *)
Theorem Encrypt_no_recipients
    (e : SSHEncryptor) (rnd : entropy) (P : list byte) :
  publicKeys e = [] ->
  Encrypt e rnd P = (Err (New "no public keys available for encryption"), e).
Proof. intro H. unfold Encrypt. rewrite H. reflexivity. Qed.

(** C9.  For every plaintext [P] and every encryptor with at least one
    recipient, the string [Encrypt] returns has the standard base64 encoding
    of [P] as its first colon-separated field, and base64 decoding of that
    field alone gives [P] back: no private key is involved. *)
Theorem Encrypt_data_field_is_base64
    (e : SSHEncryptor) (key P : list byte) :
  publicKeys e <> [] ->
  exists envelope,
    Encrypt e (Ok key) P = (Ok envelope, e)
    /\ data_field envelope = EncodeToString P
    /\ DecodeString (data_field envelope) = (P, None).
Proof.
  intro Hpub. eexists. split; [apply Encrypt_ok, Hpub|].
  destruct (publicKeys e) as [|k ks]; [congruence|].
  unfold data_field. rewrite Split_envelope. cbn [nth].
  split; [reflexivity | apply DecodeString_EncodeToString].
Qed.

(** C10.  With private keys available, [Decrypt] on every string that has
    no colon fails with "invalid encrypted data format", valid base64 or
    not; and on two strings that each have a colon and have the same first
    field it gives the same result. *)
Theorem Decrypt_format (d : SSHEncryptor) :
  privateKeys d <> [] ->
  (forall s, IndexByte s ":"%char = None ->
             Decrypt d s = (Err (New "invalid encrypted data format"), d))
  /\ (forall s1 s2,
        IndexByte s1 ":"%char <> None ->
        IndexByte s2 ":"%char <> None ->
        data_field s1 = data_field s2 ->
        Decrypt d s1 = Decrypt d s2).
Proof.
  intro Hk. split.
  - intros s Hs. unfold Decrypt.
    destruct (privateKeys d) as [|x xs]; [congruence|]. cbn [List.length Nat.eqb].
    rewrite (Split_no_sep s _ Hs). reflexivity.
  - intros s1 s2 H1 H2 E.
    rewrite !Decrypt_with_colon by assumption. rewrite E. reflexivity.
Qed.

(** C1, at an example: what Alice's key holder decrypts. *)
Lemma Encrypt_Decrypt_roundtrip_witness :
  (forall key, exists envelope,
      Encrypt Sample.to_alice (Ok key) Sample.secret
      = (Ok envelope, Sample.to_alice))
  /\ (forall rnd envelope,
        fst (Encrypt Sample.to_alice rnd Sample.secret) = Ok envelope ->
        Decrypt Sample.with_alice envelope = (Ok Sample.secret, Sample.with_alice)).
Proof.
  apply (Encrypt_Decrypt_roundtrip Sample.to_alice Sample.with_alice
           Sample.secret Sample.alice).
  - discriminate.
  - discriminate.
  - left; reflexivity.
  - left; reflexivity.
Defined.

Lemma Encrypt_no_recipients_witness :
  Encrypt Sample.no_keys (Ok Sample.key1) Sample.secret
  = (Err (New "no public keys available for encryption"), Sample.no_keys).
Proof. apply (Encrypt_no_recipients Sample.no_keys); reflexivity. Defined.

Lemma Encrypt_data_field_is_base64_witness :
  exists envelope,
    Encrypt Sample.to_alice (Ok Sample.key1) Sample.secret
    = (Ok envelope, Sample.to_alice)
    /\ data_field envelope = EncodeToString Sample.secret
    /\ DecodeString (data_field envelope) = (Sample.secret, None).
Proof.
  apply (Encrypt_data_field_is_base64 Sample.to_alice Sample.key1 Sample.secret).
  discriminate.
Defined.

Lemma Decrypt_format_witness :
  Decrypt Sample.with_alice "c2VjcmV0"
  = (Err (New "invalid encrypted data format"), Sample.with_alice)
  /\ Decrypt Sample.with_alice "c2VjcmV0:" = Decrypt Sample.with_alice "c2VjcmV0:x:y".
Proof.
  destruct (Decrypt_format Sample.with_alice) as [H1 H2]; [discriminate|].
  split.
  - apply H1. reflexivity.
  - apply H2; [discriminate | discriminate | reflexivity].
Defined.

(** C4, refuted: two calls of [Encrypt] on the same plaintext for the same
    recipient, with different random keys, return the same envelope. *)
Lemma Encrypt_fresh_key_counterexample :
  Sample.key1 <> Sample.key2
  /\ Encrypt Sample.to_alice (Ok Sample.key1) Sample.secret
     = (Ok Sample.secret_envelope, Sample.to_alice)
  /\ Encrypt Sample.to_alice (Ok Sample.key2) Sample.secret
     = (Ok Sample.secret_envelope, Sample.to_alice).
Proof. repeat split; [discriminate | vm_compute; reflexivity ..]. Qed.

(** C4, amended.  Every encryption with a recipient reads a random key and
    fails when the read fails; the key read is not used: for every
    plaintext and every encryptor, two calls of [Encrypt] with any two
    random keys return the same result, so the envelope is a function of the
    plaintext and the recipients alone. *)
Theorem Encrypt_ignores_random_key (e : SSHEncryptor) (P : list byte) :
  publicKeys e <> [] ->
  (forall err, Encrypt e (Err err) P
               = (Err (Wrapf "failed to generate random key" err), e))
  /\ (forall key1 key2, Encrypt e (Ok key1) P = Encrypt e (Ok key2) P).
Proof.
  intro H. split.
  - intro err. unfold Encrypt.
    destruct (publicKeys e); [congruence | reflexivity].
  - intros key1 key2. rewrite !Encrypt_ok by exact H. reflexivity.
Qed.

Lemma Encrypt_ignores_random_key_witness :
  (forall err, Encrypt Sample.to_alice (Err err) Sample.secret
               = (Err (Wrapf "failed to generate random key" err), Sample.to_alice))
  /\ (forall key1 key2, Encrypt Sample.to_alice (Ok key1) Sample.secret
                        = Encrypt Sample.to_alice (Ok key2) Sample.secret).
Proof.
  apply (Encrypt_ignores_random_key Sample.to_alice Sample.secret). discriminate.
Defined.

(** C5, refuted: an envelope addressed to Alice only, decrypted by an
    encryptor that holds Bob's key only: no signer matches a slot, and
    [Decrypt] returns the plaintext. *)
Lemma Decrypt_no_matching_signer_counterexample :
  Encrypt Sample.to_alice (Ok Sample.key1) Sample.secret
  = (Ok Sample.secret_envelope, Sample.to_alice)
  /\ some_signer_matches (privateKeys Sample.with_bob) Sample.secret_envelope = false
  /\ Decrypt Sample.with_bob Sample.secret_envelope
     = (Ok Sample.secret, Sample.with_bob).
Proof. repeat split; vm_compute; reflexivity. Qed.

(** C5, amended.  For every envelope, [Decrypt] fails with "no private keys
    available for decryption" when the encryptor holds no signer at all;
    when it holds one, no signer is compared with any slot: the result is
    the same for every non-empty set of signers, matching or not. *)
Theorem Decrypt_signers_only_counted (d1 d2 : SSHEncryptor) (envelope : string) :
  (privateKeys d1 = [] ->
   Decrypt d1 envelope
   = (Err (New "no private keys available for decryption"), d1))
  /\ (privateKeys d1 <> [] -> privateKeys d2 <> [] ->
      fst (Decrypt d1 envelope) = fst (Decrypt d2 envelope)).
Proof.
  split.
  - intro H. unfold Decrypt. rewrite H. reflexivity.
  - intros H1 H2. unfold Decrypt.
    destruct (privateKeys d1); [congruence|].
    destruct (privateKeys d2); [congruence|]. cbn [List.length Nat.eqb].
    destruct (List.length (Split envelope ":") <? 2)%nat; [reflexivity|].
    destruct (DecodeString (nth 0 (Split envelope ":") "")) as [bs [err|]];
      reflexivity.
Qed.

Lemma Decrypt_signers_only_counted_witness :
  Decrypt Sample.no_keys Sample.secret_envelope
  = (Err (New "no private keys available for decryption"), Sample.no_keys)
  /\ fst (Decrypt Sample.with_alice Sample.secret_envelope)
     = fst (Decrypt Sample.with_bob Sample.secret_envelope).
Proof.
  split.
  - apply (Decrypt_signers_only_counted Sample.no_keys Sample.no_keys). reflexivity.
  - apply (Decrypt_signers_only_counted Sample.with_alice Sample.with_bob);
      discriminate.
Defined.

(** C2, refuted: flipping the lowest bit of the first character of the
    ciphertext of an envelope made by [Encrypt] gives an envelope that
    [Decrypt] accepts, returning another plaintext; and flipping bit 1 of
    the second character of the envelope of ["A"] gives an envelope on
    which [Decrypt] returns the plaintext ["A"] itself. *)
Lemma Decrypt_tampered_counterexample :
  Encrypt Sample.to_alice (Ok Sample.key1) Sample.secret
  = (Ok Sample.secret_envelope, Sample.to_alice)
  /\ flip_bit 0 0 Sample.secret_envelope = "b2VjcmV0:YWxpY2Uta2V5"
  /\ Decrypt Sample.with_alice (flip_bit 0 0 Sample.secret_envelope)
     = (Ok (Sample.bytes "oecret"), Sample.with_alice)
  /\ Encrypt Sample.to_alice (Ok Sample.key1) (Sample.bytes "A")
     = (Ok Sample.A_envelope, Sample.to_alice)
  /\ flip_bit 1 1 Sample.A_envelope = "QS==:YWxpY2Uta2V5"
  /\ Decrypt Sample.with_alice (flip_bit 1 1 Sample.A_envelope)
     = (Ok (Sample.bytes "A"), Sample.with_alice).
Proof. repeat split; vm_compute; reflexivity. Qed.

(** C2, amended.  For every envelope made by [Encrypt] and every single-bit
    modification of its ciphertext (the data field; there is no tag),
    [Decrypt] checks no integrity: its result is the base64 decoding of the
    first colon-separated field of the modified ciphertext, that is the
    plaintext decoded when that field is valid base64, and the error "failed
    to decode encrypted data", with no plaintext, when it is not. *)
Theorem Decrypt_modified_ciphertext
    (e d : SSHEncryptor) (rnd : entropy) (P : list byte) (envelope : string)
    (pos : nat) (bit : N) :
  privateKeys d <> [] ->
  fst (Encrypt e rnd P) = Ok envelope ->
  (pos < String.length (EncodeToString P))%nat ->
  Decrypt d (flip_bit pos bit envelope)
  = match DecodeString (data_field (flip_bit pos bit (EncodeToString P))) with
    | (_, Some err) => (Err (Wrapf "failed to decode encrypted data" err), d)
    | (decodedData, None) => (Ok decodedData, d)
    end.
Proof.
  intros Hk He Hpos. apply Encrypt_inv in He as [Hpub ->].
  destruct (publicKeys e) as [|k ks]; [congruence|].
  rewrite flip_bit_app by exact Hpos.
  rewrite Decrypt_with_colon.
  - cbn [map]. rewrite slots_string_cons, data_field_app. reflexivity.
  - exact Hk.
  - apply IndexByte_app_l, slots_string_colon.
Qed.

Lemma Decrypt_modified_ciphertext_witness :
  Decrypt Sample.with_alice (flip_bit 2 3 Sample.secret_envelope)
  = match DecodeString
            (data_field (flip_bit 2 3 (EncodeToString Sample.secret))) with
    | (_, Some err) =>
        (Err (Wrapf "failed to decode encrypted data" err), Sample.with_alice)
    | (decodedData, None) => (Ok decodedData, Sample.with_alice)
    end.
Proof.
  apply (Decrypt_modified_ciphertext Sample.to_alice Sample.with_alice
           (Ok Sample.key1) Sample.secret Sample.secret_envelope 2 3).
  - discriminate.
  - vm_compute; reflexivity.
  - vm_compute; lia.
Defined.

End CryptoClaims.

(** ** Facts about the file system *)

Module OSFacts.

Import OS.

Lemma lookup_set_entry (name : string) (n : node) (es : list (string * node)) :
  lookup name (set_entry name n es) = Some n.
Proof.
  induction es as [|[k m] es IH]; cbn.
  - now rewrite String.eqb_refl.
  - destruct (String.eqb k name) eqn:E; cbn; rewrite E; [reflexivity | exact IH].
Qed.

(** After [writeFile] the path names a file with the data written. *)
Lemma writeFile_lstat (elems : list string) (data : list byte) :
  forall t t', writeFile elems data t = inr t' -> lstat elems t' = inr (File data).
Proof.
  induction elems as [|el rest IH]; intros [d|es] t'; cbn; try discriminate.
  destruct rest as [|r rs].
  - destruct (lookup el es) as [[d|sub]|]; try discriminate;
      intro H; injection H as <-; cbn; now rewrite lookup_set_entry.
  - destruct (lookup el es) as [c|]; [|discriminate].
    destruct (writeFile (r :: rs) data c) as [e|c'] eqn:W; [discriminate|].
    intro H; injection H as <-.
    cbn [lstat]. rewrite lookup_set_entry. exact (IH c c' W).
Qed.

End OSFacts.

(** ** Facts about paths *)

Module PathFacts.

Import Strings Filepath StringFacts.

Lemma length_append (a b : string) :
  String.length (a ++ b) = (String.length a + String.length b)%nat.
Proof. induction a as [|c a IH]; cbn; [reflexivity | now rewrite IH]. Qed.

(** The fields of [a ++ sep ++ b] are those of [a], then those of [b]. *)
Lemma Split_app_sep (a b : string) (sep : ascii) :
  Split (a ++ String sep b) sep = Split a sep ++ Split b sep.
Proof.
  induction a as [|c a IH]; cbn.
  - now rewrite Ascii.eqb_refl.
  - destruct (Ascii.eqb c sep); [now rewrite IH|].
    rewrite IH. pose proof (Split_not_nil a sep).
    destruct (Split a sep); [congruence | reflexivity].
Qed.

(** Appending a string with no separator extends the last field. *)
Lemma Split_app_no_sep (a b : string) (sep : ascii) :
  IndexByte b sep = None ->
  exists init l, Split a sep = init ++ [l]
                 /\ Split (a ++ b) sep = init ++ [(l ++ b)%string].
Proof.
  intro Hb. induction a as [|c a (init & l & E1 & E2)]; cbn.
  - exists [], "". split; [reflexivity|]. cbn. now apply Split_no_sep.
  - destruct (Ascii.eqb c sep).
    + exists ("" :: init), l. rewrite E1, E2. split; reflexivity.
    + rewrite E1, E2. destruct init as [|h t]; cbn.
      * exists [], (String c l). split; reflexivity.
      * exists (String c h :: t), l. split; reflexivity.
Qed.

Lemma Split_fields_no_sep (s : string) (sep : ascii) :
  Forall (fun x => IndexByte x sep = None) (Split s sep).
Proof.
  induction s as [|c s IH]; cbn.
  - repeat constructor.
  - destruct (Ascii.eqb c sep) eqn:E.
    + constructor; [reflexivity | exact IH].
    + destruct (Split s sep) as [|h t]; [repeat constructor; cbn; now rewrite E|].
      inversion IH as [|? ? Hh Ht]; subst.
      constructor; [cbn; now rewrite E, Hh | exact Ht].
Qed.

(** The loop of [Clean] over a concatenation. *)
Lemma clean_elements_app (r : bool) (A B : list string) :
  forall out,
    clean_elements r (A ++ B) out
    = clean_elements r B (rev (clean_elements r A out)).
Proof.
  induction A as [|el A IH]; intro out; cbn [app clean_elements].
  - now rewrite rev_involutive.
  - destruct (String.eqb el ""); [apply IH|].
    destruct (String.eqb el "."); [apply IH|].
    destruct (String.eqb el ".."); [|apply IH].
    destruct out as [|top out']; [destruct r; apply IH|].
    destruct (String.eqb top ".."); apply IH.
Qed.

(** Without [..] the loop of [Clean] only appends the elements it keeps. *)
Lemma clean_elements_no_dotdot (r : bool) (B : list string) :
  existsb (String.eqb "..") B = false ->
  forall out, clean_elements r B out = rev out ++ filter kept B.
Proof.
  induction B as [|el B IH]; intros H out; cbn [clean_elements filter].
  - now rewrite app_nil_r.
  - cbn [existsb] in H. apply orb_false_elim in H as [H1 H2].
    rewrite String.eqb_sym in H1. unfold kept.
    destruct (String.eqb el ""); cbn [negb andb]; [now apply IH|].
    destruct (String.eqb el "."); cbn [negb andb]; [now apply IH|].
    rewrite H1. rewrite (IH H2). cbn [rev]. now rewrite <- app_assoc.
Qed.

Lemma is_name_inv (el : string) :
  is_name el = true ->
  String.eqb el "" = false /\ String.eqb el "." = false
  /\ String.eqb el ".." = false /\ IndexByte el Separator = None.
Proof.
  unfold is_name, kept. intro H.
  destruct (String.eqb el ""); [discriminate|].
  destruct (String.eqb el "."); [discriminate|].
  destruct (String.eqb el ".."); [discriminate|].
  destruct (IndexByte el Separator); [discriminate|]. auto.
Qed.

Lemma forallb_rev {A} (f : A -> bool) (l : list A) :
  forallb f (rev l) = forallb f l.
Proof.
  induction l as [|x l IH]; cbn; [reflexivity|].
  rewrite forallb_app, IH. cbn. rewrite andb_true_r. apply andb_comm.
Qed.

(** On a rooted path the loop of [Clean] leaves file names only. *)
Lemma clean_elements_names (E : list string) :
  Forall (fun x => IndexByte x Separator = None) E ->
  forall out, forallb is_name out = true ->
              forallb is_name (clean_elements true E out) = true.
Proof.
  induction 1 as [|el E Hel HE IH]; intros out Hout; cbn [clean_elements].
  - now rewrite forallb_rev.
  - destruct (String.eqb el "") eqn:E1; [now apply IH|].
    destruct (String.eqb el ".") eqn:E2; [now apply IH|].
    destruct (String.eqb el "..") eqn:E3.
    + destruct out as [|top out']; [now apply IH|].
      cbn [forallb] in Hout. apply andb_prop in Hout as [Ht Ho].
      apply is_name_inv in Ht as (_ & _ & -> & _). now apply IH.
    + apply IH. cbn [forallb]. rewrite Hout, andb_true_r.
      unfold is_name, kept. now rewrite E1, E2, E3, Hel.
Qed.

(** The loop of [Clean] over file names appends them all. *)
Lemma clean_elements_of_names (r : bool) (E : list string) :
  forallb is_name E = true ->
  forall out, clean_elements r E out = rev out ++ E.
Proof.
  induction E as [|el E IH]; intros H out; cbn [clean_elements].
  - now rewrite app_nil_r.
  - cbn [forallb] in H. apply andb_prop in H as [H1 H2].
    apply is_name_inv in H1 as (-> & -> & -> & _).
    rewrite (IH H2). cbn [rev]. now rewrite <- app_assoc.
Qed.

(** The elements of file names joined by the separator. *)
Lemma elements_Join (out : list string) :
  forallb is_name out = true -> out <> [] ->
  elements (Strings.Join out "/") = out.
Proof.
  unfold elements, Strings.Join.
  induction out as [|x out IH]; intros H N; [congruence|].
  cbn [forallb] in H. apply andb_prop in H as [H1 H2].
  apply is_name_inv in H1 as (_ & _ & _ & Hx).
  destruct out as [|y out].
  - cbn. now apply Split_no_sep.
  - change (concat "/" (x :: y :: out))
      with (x ++ String Separator (concat "/" (y :: out)))%string.
    rewrite Split_app_sep, (Split_no_sep x _ Hx), IH by (assumption || discriminate).
    reflexivity.
Qed.

Lemma rooted_inv (p : string) :
  rooted p = true -> exists rest, p = String Separator rest.
Proof.
  destruct p as [|c rest]; cbn; [discriminate|].
  intro H. apply Ascii.eqb_eq in H. subst. now exists rest.
Qed.

(** The file a rooted path names is the file its [Clean] names. *)
Lemma resolve_Clean_rooted (f : OS.FS) (p : string) :
  rooted p = true -> OS.resolve f (Clean p) = OS.resolve f p.
Proof.
  intro Hr. destruct (rooted_inv p Hr) as [rest ->].
  unfold Clean. rewrite Hr. cbn [String.eqb].
  set (out := clean_elements true (elements (String Separator rest)) []).
  assert (Hout : forallb is_name out = true)
    by (apply clean_elements_names; [apply Split_fields_no_sep | reflexivity]).
  unfold OS.resolve. cbn [append String.eqb rooted]. rewrite Ascii.eqb_refl.
  f_equal. fold out.
  change (elements (String "/" (Strings.Join out "/")))
    with ("" :: elements (Strings.Join out "/")).
  cbn [clean_elements String.eqb].
  destruct out as [|x out'] eqn:E; [reflexivity|].
  rewrite elements_Join by (assumption || discriminate).
  now rewrite clean_elements_of_names.
Qed.

Lemma not_dotdot_pass (l : string) : String.eqb ".." (l ++ ".pass") = false.
Proof.
  apply String.eqb_neq. intro H. apply (f_equal String.length) in H.
  rewrite length_append in H. cbn in H. lia.
Qed.

Lemma kept_pass (l : string) : kept (l ++ ".pass") = true.
Proof.
  unfold kept. apply andb_true_intro.
  split; apply negb_true_iff, String.eqb_neq; intro H;
    apply (f_equal String.length) in H; rewrite length_append in H; cbn in H; lia.
Qed.


End PathFacts.

(** ** Facts about the store *)

Module StoreFacts.

Import OS Storage OSFacts.

(** The file a path names depends on the working directory only. *)
Lemma resolve_with_tree (f : FS) (t : node) (path : string) :
  resolve {| tree := t; cwd := cwd f |} path = resolve f path.
Proof. reflexivity. Qed.

(** A successful [Add]: the envelope is in the file of the final name. *)
Lemma Add_ok_inv (s : Store) (rnd : Crypto.entropy) (name : string)
    (password : list byte) (w w' : World) :
  Add s rnd name password w = (Ok tt, w') ->
  exists encryptedData felems,
    Crypto.Encryptor_Encrypt (encryptor s) rnd password = Ok encryptedData
    /\ resolve (fs w) (Filepath.Join [rootDir s; (name ++ ".pass")%string])
       = Some felems
    /\ lstat felems (tree (fs w')) = inr (File (list_byte_of_string encryptedData))
    /\ cwd (fs w') = cwd (fs w).
Proof.
  unfold Add.
  destruct (Crypto.Encryptor_Encrypt (encryptor s) rnd password)
    as [encryptedData|err]; [|discriminate].
  unfold bind, wrap, MkdirAll, WriteFile, record, with_tree.
  cbn [fs calls tree cwd].
  destruct (resolve (fs w) _) as [delems|]; [|discriminate].
  destruct (mkdirAll delems (tree (fs w))) as [e|t1]; [discriminate|].
  cbn [fs calls tree cwd]. rewrite resolve_with_tree.
  destruct (resolve (fs w) _) as [felems|] eqn:R; [|discriminate].
  destruct (writeFile felems (list_byte_of_string encryptedData) t1)
    as [e|t2] eqn:W; [discriminate|].
  intro H. injection H as <-. cbn [fs tree cwd].
  exists encryptedData, felems. repeat split.
  exact (writeFile_lstat _ _ _ _ W).
Qed.


(** After a successful [Add], [Get] of the same name reads the envelope
    back and returns what the encryptor decrypts from it. *)
Lemma Add_Get (s : Store) (rnd : Crypto.entropy) (name : string)
    (password : list byte) (w w' : World) :
  Add s rnd name password w = (Ok tt, w') ->
  exists encryptedData,
    Crypto.Encryptor_Encrypt (encryptor s) rnd password = Ok encryptedData
    /\ fst (Get s name w')
       = match Crypto.Encryptor_Decrypt (encryptor s) encryptedData with
         | Ok p => Ok p
         | Err err => Err (Wrapf "decryption failed" err)
         end.
Proof.
  intro H. apply Add_ok_inv in H as (env & felems & He & Hf & Hl & Hc).
  exists env. split; [exact He|].
  unfold Get, bind, wrap, ReadFile, record. cbn [fs calls].
  assert (R : resolve (fs w') (Filepath.Join [rootDir s; (name ++ ".pass")%string])
              = Some felems).
  { rewrite <- Hf. unfold resolve. now rewrite Hc. }
  rewrite R, Hl, string_of_list_byte_of_string.
  now destruct (Crypto.Encryptor_Decrypt (encryptor s) env).
Qed.

End StoreFacts.

(** ** Claims about the store: writing an entry *)

Module StoreWriteClaims.

Import OS Storage OSFacts StoreFacts PathFacts.

(** C6, refuted: an [Add] that succeeds and whose only calls on the file
    system are [MkdirAll] on the directory and [WriteFile] on the final
    name: no temporary file is created and nothing is renamed. *)
Lemma Add_temp_rename_counterexample :
  let r := Add Sample.store (Ok Sample.key1) "email/work" Sample.secret
               Sample.empty_store_world in
  fst r = Ok tt
  /\ calls (snd r)
     = [CallMkdirAll "/store/email" 448;
        CallWriteFile "/store/email/work.pass"
          (Sample.bytes Sample.secret_envelope) 384]
  /\ existsb is_temp_or_rename (calls (snd r)) = false.
Proof. repeat split; vm_compute; reflexivity. Qed.

(** C6, amended.  For every name and secret, [Store.Add] makes at most two
    calls on the file system, [MkdirAll] on the directory of the entry
    (mode 0700) and then [WriteFile] on the final name (mode 0600): it
    creates no temporary file and renames nothing.  When [Add] succeeds it
    has made exactly these two calls, the second with the serialized
    envelope, and the file under the final name holds the whole envelope. *)
Theorem Add_writes_in_place
    (s : Store) (rnd : Crypto.entropy) (name : string) (password : list byte)
    (w : World) :
  let dir := Filepath.Dir (Filepath.Join [rootDir s; name]) in
  let filePath := Filepath.Join [rootDir s; (name ++ ".pass")%string] in
  let r := Add s rnd name password w in
  (exists cs,
      calls (snd r) = calls w ++ cs
      /\ existsb is_temp_or_rename cs = false
      /\ Forall (fun c => c = CallMkdirAll dir perm_dir
                          \/ exists data, c = CallWriteFile filePath data perm_file)
                cs)
  /\ (fst r = Ok tt ->
      exists encryptedData,
        Crypto.Encryptor_Encrypt (encryptor s) rnd password = Ok encryptedData
        /\ calls (snd r)
           = calls w ++ [CallMkdirAll dir perm_dir;
                         CallWriteFile filePath
                           (list_byte_of_string encryptedData) perm_file]
        /\ fst (ReadFile filePath (snd r))
           = Ok (list_byte_of_string encryptedData)).
Proof.
  intros dir filePath r. subst r. unfold Add. fold dir. fold filePath.
  destruct (Crypto.Encryptor_Encrypt (encryptor s) rnd password)
    as [encryptedData|err].
  2:{ cbn. split; [|discriminate]. exists []. rewrite app_nil_r. auto. }
  unfold bind, wrap, MkdirAll, WriteFile, record, with_tree. cbn [fs calls tree cwd].
  destruct (resolve (fs w) dir) as [delems|].
  2:{ cbn. split; [|discriminate]. eexists. split; [reflexivity|].
      split; [reflexivity|]. only_mkdir_write. }
  destruct (mkdirAll delems (tree (fs w))) as [e|t1].
  { cbn. split; [|discriminate]. eexists. split; [reflexivity|].
    split; [reflexivity|]. only_mkdir_write. }
  cbn [fs calls tree cwd].
  set (f1 := {| tree := t1; cwd := cwd (fs w) |}).
  destruct (resolve f1 filePath) as [felems|] eqn:R.
  2:{ cbn. split; [|discriminate]. eexists. rewrite <- app_assoc.
      split; [reflexivity|]. split; [reflexivity|].
      only_mkdir_write. }
  destruct (writeFile felems (list_byte_of_string encryptedData) t1)
    as [e|t2] eqn:W.
  { cbn. split; [|discriminate]. eexists. rewrite <- app_assoc.
    split; [reflexivity|]. split; [reflexivity|].
    only_mkdir_write. }
  cbn [fst snd fs calls tree cwd]. split.
  - eexists. rewrite <- app_assoc.
    split; [reflexivity|]. split; [reflexivity|].
    only_mkdir_write.
  - intros _. exists encryptedData. split; [reflexivity|].
    split; [now rewrite <- app_assoc|].
    unfold ReadFile, record. cbn [fs calls tree cwd].
    assert (R' : resolve {| tree := t2; cwd := cwd (fs w) |} filePath = Some felems)
      by exact R.
    rewrite R'. rewrite (writeFile_lstat _ _ _ _ W). reflexivity.
Qed.

Lemma Add_writes_in_place_witness :
  exists encryptedData,
    Crypto.Encryptor_Encrypt (encryptor Sample.store) (Ok Sample.key1)
      Sample.secret = Ok encryptedData
    /\ calls (snd (Add Sample.store (Ok Sample.key1) "email/work" Sample.secret
                       Sample.empty_store_world))
       = calls Sample.empty_store_world
         ++ [CallMkdirAll "/store/email" perm_dir;
             CallWriteFile "/store/email/work.pass"
               (list_byte_of_string encryptedData) perm_file]
    /\ fst (ReadFile "/store/email/work.pass"
              (snd (Add Sample.store (Ok Sample.key1) "email/work" Sample.secret
                        Sample.empty_store_world)))
       = Ok (list_byte_of_string encryptedData).
Proof.
  destruct (Add_writes_in_place Sample.store (Ok Sample.key1) "email/work"
              Sample.secret Sample.empty_store_world) as [_ H].
  apply H. reflexivity.
Defined.




End StoreWriteClaims.

(** ** Facts about the order of names and the sort of a directory *)

Module OrderFacts.

Import OS.

Lemma ascii_compare_refl (a : ascii) : Ascii.compare a a = Eq.
Proof. unfold Ascii.compare. apply N.compare_refl. Qed.


Lemma compare_refl (s : string) : String.compare s s = Eq.
Proof.
  induction s as [|c s IH]; cbn; [reflexivity|].
  now rewrite ascii_compare_refl.
Qed.





Section Sort.

Context {A : Type}.
Implicit Types (x y : string * A) (l : list (string * A)).

Lemma insert_by_name_perm x l :
  Permutation (insert_by_name x l) (x :: l).
Proof.
  induction l as [|y l IH]; cbn; [reflexivity|].
  destruct (String.leb (fst x) (fst y)); [reflexivity|].
  rewrite IH. apply perm_swap.
Qed.

(** Sorting a directory keeps its entries. *)
Lemma sort_by_name_perm l : Permutation (sort_by_name l) l.
Proof.
  induction l as [|x l IH]; cbn; [reflexivity|].
  rewrite insert_by_name_perm. now constructor.
Qed.




End Sort.


End OrderFacts.

(** ** Facts about the walk *)

Module WalkFacts.

Import OS Storage OrderFacts.

(** Induction on a tree, with the property for every entry of a
    directory. *)
Lemma node_ind' (P : node -> Prop) :
  (forall data, P (File data)) ->
  (forall es, Forall (fun e => P (snd e)) es -> P (Dir es)) ->
  forall n, P n.
Proof.
  intros HF HD. fix IH 1. intros [data|es]; [apply HF|].
  apply HD. induction es as [|[k c] es IHes]; constructor; [apply IH | exact IHes].
Qed.

Lemma walk_Dir (rel : list string) (es : list (string * node)) :
  walk rel (Dir es)
  = (rel, true)
      :: flat_map snd
           (sort_by_name
              (map (fun e => (fst e, walk (rel ++ [fst e]) (snd e))) es)).
Proof.
  cbn [walk]. do 3 f_equal.
  induction es as [|[k c] es IH]; cbn [map fst snd]; [reflexivity|].
  now rewrite IH.
Qed.

Lemma wf_node_Dir (es : list (string * node)) :
  wf_node (Dir es) = true ->
  distinct (map fst es) = true /\ Forall (fun e => wf_node (snd e) = true) es.
Proof.
  cbn [wf_node]. intro H. apply andb_prop in H as [H1 H2]. split; [exact H1|].
  clear H1. induction es as [|[k c] es IH]; constructor.
  - apply andb_prop in H2 as [H _]. exact H.
  - apply IH. apply andb_prop in H2 as [_ H]. exact H.
Qed.

Lemma lookup_In (k : string) (c : node) (es : list (string * node)) :
  lookup k es = Some c -> In (k, c) es.
Proof.
  induction es as [|[k0 c0] es IH]; cbn; [discriminate|].
  destruct (String.eqb_spec k0 k) as [->|_].
  - intro H. injection H as ->. now left.
  - intro H. right. now apply IH.
Qed.

Lemma In_lookup (k : string) (c : node) (es : list (string * node)) :
  distinct (map fst es) = true -> In (k, c) es -> lookup k es = Some c.
Proof.
  induction es as [|[k0 c0] es IH]; cbn [map fst distinct lookup In]; [tauto|].
  intros H [E|Hin].
  - injection E as -> ->. now rewrite String.eqb_refl.
  - apply andb_prop in H as [H1 H2].
    destruct (String.eqb_spec k0 k) as [->|_]; [|now apply IH].
    exfalso. apply negb_true_iff in H1.
    assert (existsb (String.eqb k) (map fst es) = true); [|congruence].
    apply existsb_exists. exists k. split; [|apply String.eqb_refl].
    now apply (in_map fst es (k, c)).
Qed.

(** The elements of the directory list the walk sorts. *)
Lemma In_sorted_entries (rel : list string) (es : list (string * node))
    (a : string * list visit) :
  In a (sort_by_name
          (map (fun e => (fst e, walk (rel ++ [fst e]) (snd e))) es)) <->
  exists k c, In (k, c) es /\ a = (k, walk (rel ++ [k]) c).
Proof.
  split.
  - intro H. apply (Permutation_in _ (sort_by_name_perm _)) in H.
    apply in_map_iff in H as ([k c] & E & Hin). now exists k, c.
  - intros (k & c & Hin & ->).
    apply (Permutation_in _ (Permutation_sym (sort_by_name_perm _))).
    apply in_map_iff. now exists (k, c).
Qed.

(** The visits of the walk are the nodes of the tree, each with its path. *)
Lemma walk_In (n : node) :
  wf_node n = true ->
  forall rel p b,
    In (p, b) (walk rel n) <->
    exists q m, p = rel ++ q /\ lstat q n = inr m /\ b = is_dir m.
Proof.
  induction n as [data|es IH] using node_ind'; intros Hwf rel p b.
  - cbn [walk In]. split.
    + intros [E|[]]. injection E as <- <-. exists [], (File data).
      now rewrite app_nil_r.
    + intros (q & m & -> & Hl & ->). left.
      destruct q as [|x q]; cbn in Hl; [|discriminate].
      injection Hl as <-. now rewrite app_nil_r.
  - apply wf_node_Dir in Hwf as [Hd Hc].
    rewrite walk_Dir. cbn [In]. rewrite in_flat_map. split.
    + intros [E|(a & Ha & Hin)].
      * injection E as <- <-. exists [], (Dir es). now rewrite app_nil_r.
      * apply In_sorted_entries in Ha as (k & c & Hkc & ->). cbn [snd] in Hin.
        rewrite Forall_forall in IH, Hc.
        apply (IH (k, c) Hkc (Hc (k, c) Hkc)) in Hin as (q & m & -> & Hl & ->).
        exists (k :: q), m. rewrite <- app_assoc. repeat split.
        cbn [lstat]. now rewrite (In_lookup k c es Hd Hkc).
    + intros (q & m & -> & Hl & ->). destruct q as [|k q].
      * left. cbn in Hl. injection Hl as <-. now rewrite app_nil_r.
      * right. cbn [lstat] in Hl.
        destruct (lookup k es) as [c|] eqn:L; [|discriminate].
        apply lookup_In in L.
        exists (k, walk (rel ++ [k]) c). split.
        -- apply In_sorted_entries. now exists k, c.
        -- cbn [snd]. rewrite Forall_forall in IH, Hc.
           apply (IH (k, c) L (Hc (k, c) L)).
           exists q, m. rewrite <- app_assoc. now repeat split.
Qed.



Section Sorted.

Context {A B : Type}.





End Sorted.


End WalkFacts.

(** ** Claims about the store: listing the entries *)

Module StoreListClaims.

Import Strings OS Storage OrderFacts WalkFacts.

Lemma rev_last (p : list string) :
  p <> [] -> exists t, rev p = last p "" :: t.
Proof.
  intro H. exists (rev (removelast p)).
  rewrite (app_removelast_last "" H) at 1.
  now rewrite rev_app_distr.
Qed.

(** What [List] appends over visits none of which is a file at the root
    path itself. *)
Lemma list_visit_entries (root : string) (l : list visit) :
  (forall v, In v l -> fst v = [] -> snd v = true) ->
  flat_map (list_visit root) l
  = map entry_name
      (map fst (filter (fun v => negb (snd v)
                                 && HasSuffix (last (fst v) "") ".pass") l)).
Proof.
  induction l as [|[p b] l IH]; intro H; [reflexivity|].
  cbn [flat_map filter fst snd].
  rewrite IH by (intros v Hv; apply H; now right).
  unfold list_visit at 1. cbn [fst snd]. destruct b; [reflexivity|].
  cbn [negb andb].
  assert (Hp : p <> []).
  { intro E. specialize (H (p, false) (or_introl eq_refl) E). discriminate. }
  destruct (rev_last p Hp) as [t Ht].
  unfold visit_name. cbn [fst]. rewrite Ht.
  destruct (HasSuffix (last p "") ".pass"); [|reflexivity].
  cbn [map fst app]. unfold visit_rel, entry_name. cbn [fst].
  destruct p; [congruence | reflexivity].
Qed.




End StoreListClaims.

(** ** The tests of the repository, run on the embedding *)

Module Tests.

Import OS Storage.

(** [TestStore] of the storage package: add, get, list, add another, list,
    delete, list. *)
Example TestStore :
  let password := Sample.bytes "test-password-123" in
  let add1 := Add Sample.test_store (Ok []) "test/entry" password in
  let add2 := Add Sample.test_store (Ok []) "another/entry"
                  (Sample.bytes "another-password") in
  let w1 := Sample.after [add1] Sample.test_world in
  let w2 := Sample.after [add2] w1 in
  let w3 := Sample.after [Delete Sample.test_store "test/entry"] w2 in
  fst (add1 Sample.test_world) = Ok tt
  /\ fst (ReadFile "/tmp/passh-test-store/test/entry.pass" w1)
     = Ok (Sample.bytes "test-password-123_encrypted")
  /\ fst (Get Sample.test_store "test/entry" w1) = Ok password
  /\ fst (List Sample.test_store w1) = Ok ["test/entry"]
  /\ fst (add2 w1) = Ok tt
  /\ fst (List Sample.test_store w2) = Ok ["another/entry"; "test/entry"]
  /\ fst (Delete Sample.test_store "test/entry" w2) = Ok tt
  /\ fst (ReadFile "/tmp/passh-test-store/test/entry.pass" w3)
     = Err (PathError "open" "/tmp/passh-test-store/test/entry.pass" ENOENT)
  /\ fst (List Sample.test_store w3) = Ok ["another/entry"].
Proof. repeat split; vm_compute; reflexivity. Qed.

(** [TestEncryptionDecryption] of the crypto package. *)
Example TestEncryptionDecryption :
  let testData := Sample.bytes "This is a test password" in
  fst (Crypto.Encrypt Sample.alice_both (Ok Sample.key1) testData)
  = Ok "VGhpcyBpcyBhIHRlc3QgcGFzc3dvcmQ=:YWxpY2Uta2V5"
  /\ fst (Crypto.Decrypt Sample.alice_both
            "VGhpcyBpcyBhIHRlc3QgcGFzc3dvcmQ=:YWxpY2Uta2V5") = Ok testData.
Proof. split; vm_compute; reflexivity. Qed.

(** The end-to-end scenario: one recipient, [Add("email/work", "S3cr3t!")],
    then [List] and [Get]. *)
Example end_to_end :
  let w := Sample.after [Add Sample.store (Ok Sample.key1) "email/work"
                             (Sample.bytes "S3cr3t!")]
                        Sample.empty_store_world in
  fst (List Sample.store w) = Ok ["email/work"]
  /\ fst (Get Sample.store "email/work" w) = Ok (Sample.bytes "S3cr3t!").
Proof. split; vm_compute; reflexivity. Qed.

End Tests.

(** * More properties *)

(** ** The envelope and its decoding *)

Module EnvelopeFacts.

Import Strings Base64 Base64Chars Crypto Base64Facts StringFacts CryptoFacts.

(** The fields of a block followed by the slots of other blocks, none with
    a colon. *)
Lemma Split_blocks (b : string) (bs : list string) :
  IndexByte b ":"%char = None ->
  Forall (fun x => IndexByte x ":"%char = None) bs ->
  Split (b ++ slots_string bs) ":"%char = b :: bs.
Proof.
  intros Hb Hbs. revert b Hb.
  induction Hbs as [|b' bs Hb' Hbs IH]; intros b Hb.
  - cbn [slots_string fold_right]. rewrite append_nil_r. now apply Split_no_sep.
  - rewrite slots_string_cons, Split_app by exact Hb. now rewrite IH.
Qed.

(** X1.  The envelope [Encrypt] returns names its recipients in the clear:
    after the data field it has one field per registered public key, in
    the order of registration, and the base64 decoding of the field is the
    marshalled public key. *)
Theorem Encrypt_slots_are_recipients
    (e : SSHEncryptor) (rnd : entropy) (P : list byte) (envelope : string) :
  fst (Encrypt e rnd P) = Ok envelope ->
  slots envelope = map slot_of (publicKeys e)
  /\ map (fun slot => DecodeString slot) (slots envelope)
     = map (fun k => (Marshal k, None)) (publicKeys e)
  /\ List.length (Split envelope ":"%char) = S (List.length (publicKeys e)).
Proof.
  intro H. apply Encrypt_inv in H as [Hpub ->].
  assert (Hs : slots (EncodeToString P ++ slots_string (map slot_of (publicKeys e)))
               = map slot_of (publicKeys e)).
  { unfold slots. destruct (publicKeys e) as [|k ks]; [congruence|].
    rewrite Split_envelope. cbn [tl map]. apply Split_blocks.
    - apply Encode_no_colon.
    - apply Forall_forall. intros x Hx. apply in_map_iff in Hx as (k' & <- & _).
      apply Encode_no_colon. }
  split; [exact Hs|]. split.
  - rewrite Hs, map_map. apply map_ext. intro k.
    apply DecodeString_EncodeToString.
  - unfold slots in Hs. pose proof (Split_not_nil
      (EncodeToString P ++ slots_string (map slot_of (publicKeys e))) ":"%char).
    destruct (Split _ ":"%char) as [|h t]; [congruence|].
    cbn [tl] in Hs. cbn [List.length]. now rewrite Hs, length_map.
Qed.

Lemma Encrypt_slots_are_recipients_witness :
  slots Sample.secret_envelope = [slot_of Sample.alice_key]
  /\ map (fun slot => DecodeString slot) (slots Sample.secret_envelope)
     = [(Marshal Sample.alice_key, None)]
  /\ List.length (Split Sample.secret_envelope ":"%char) = 2%nat.
Proof.
  apply (Encrypt_slots_are_recipients Sample.to_alice (Ok Sample.key1)
           Sample.secret Sample.secret_envelope).
  vm_compute; reflexivity.
Defined.

Lemma skip_newlines_rejected (s : string) (si : nat) :
  has_rejected s = true -> has_rejected (fst (skip_newlines s si)) = true.
Proof.
  revert si. induction s as [|c s IH]; intros si H; cbn [skip_newlines].
  - exact H.
  - destruct (is_newline c) eqn:N; [|exact H].
    apply IH. cbn [has_rejected] in H. unfold accepted in H.
    rewrite N, orb_true_r in H. exact H.
Qed.

Lemma rejected_not_empty (s : string) : has_rejected s = true -> s <> "".
Proof. intros H ->. discriminate. Qed.

(** The decoder reports an error on every input with a character it
    accepts nowhere. *)
Lemma decode_from_rejected (s : string) :
  has_rejected s = true ->
  forall si dbuf, snd (decode_from s si dbuf) <> None.
Proof.
  induction s as [|c s IH]; intros H si dbuf; [discriminate|].
  cbn [has_rejected] in H. cbn [decode_from].
  unfold accepted in H.
  destruct (N.eqb (decodeMap c) 0xff) eqn:Hd; cbn [negb] in *.
  2:{ cbn [orb] in H.
      destruct (List.length (dbuf ++ [decodeMap c]) =? 4)%nat.
      - specialize (IH H (S si) []).
        destruct (decode_from s (S si) []) as [bs err]. exact IH.
      - apply IH, H. }
  destruct (is_newline c) eqn:Hn; cbn [orb negb] in H; [now apply IH|].
  destruct (Ascii.eqb c padChar) eqn:Hp; cbn [negb orb] in *; [|discriminate].
  destruct (List.length dbuf) as [|[|[|n]]]; try discriminate.
  - pose proof (skip_newlines_rejected s (S si) H) as H1.
    destruct (skip_newlines s (S si)) as [r1 si1]. cbn [fst] in H1.
    destruct r1 as [|c2 r2]; [discriminate|].
    destruct (Ascii.eqb c2 padChar) eqn:Hp2; cbn [negb]; [|discriminate].
    cbn [has_rejected] in H1. unfold accepted in H1.
    rewrite Hp2, orb_true_r in H1. cbn [negb orb] in H1.
    pose proof (skip_newlines_rejected r2 (S si1) H1) as H3.
    destruct (skip_newlines r2 (S si1)) as [r3 si3]. cbn [fst snd] in *.
    destruct r3; [discriminate H3 | discriminate].
  - pose proof (skip_newlines_rejected s (S si) H) as H3.
    destruct (skip_newlines s (S si)) as [r3 si3]. cbn [fst snd] in *.
    destruct r3; [discriminate H3 | discriminate].
Qed.

(** X2.  [Decrypt], by an encryptor with a signer, fails with "failed to
    decode encrypted data" and returns no plaintext on every envelope whose
    data field has a character that is neither of the base64 alphabet, nor
    the padding character, nor a newline, wherever the character is. *)
Theorem Decrypt_rejects_non_base64 (d : SSHEncryptor) (envelope : string) :
  privateKeys d <> [] ->
  IndexByte envelope ":"%char <> None ->
  has_rejected (data_field envelope) = true ->
  exists err,
    Decrypt d envelope = (Err (Wrapf "failed to decode encrypted data" err), d).
Proof.
  intros Hk Hc Hr. rewrite Decrypt_with_colon by assumption.
  pose proof (decode_from_rejected _ Hr 0%nat []) as H.
  unfold DecodeString.
  destruct (decode_from (data_field envelope) 0 []) as [bs [err|]];
    [now exists err | now cbn in H].
Qed.

Lemma Decrypt_rejects_non_base64_witness :
  exists err,
    Decrypt Sample.with_alice "c2Vj cmV0:YWxpY2Uta2V5"
    = (Err (Wrapf "failed to decode encrypted data" err), Sample.with_alice).
Proof.
  apply (Decrypt_rejects_non_base64 Sample.with_alice "c2Vj cmV0:YWxpY2Uta2V5").
  - discriminate.
  - discriminate.
  - vm_compute; reflexivity.
Defined.

(** [Decrypt] undoes [Encrypt], whatever signer the decrypting encryptor
    holds. *)
Lemma Decrypt_Encrypt (e d : SSHEncryptor) (rnd : entropy) (P : list byte)
    (envelope : string) :
  privateKeys d <> [] ->
  fst (Encrypt e rnd P) = Ok envelope ->
  Decrypt d envelope = (Ok P, d).
Proof.
  intros Hk H. apply Encrypt_inv in H as [Hpub ->].
  destruct (publicKeys e) as [|k ks]; [congruence|].
  rewrite Decrypt_with_colon; [|exact Hk|].
  - unfold data_field. rewrite Split_envelope. cbn [nth].
    now rewrite DecodeString_EncodeToString.
  - apply IndexByte_app_l, slots_string_colon.
Qed.

(** The slots of what [Encrypt] returns for recipients [ks]. *)
Lemma slots_of_envelope (P : list byte) (ks : list PublicKey) :
  ks <> [] ->
  slots (EncodeToString P ++ slots_string (map slot_of ks)) = map slot_of ks.
Proof.
  intro N. unfold slots. destruct ks as [|k ks]; [congruence|].
  rewrite Split_envelope. cbn [tl map]. apply Split_blocks.
  - apply Encode_no_colon.
  - apply Forall_forall. intros x Hx. apply in_map_iff in Hx as (k' & <- & _).
    apply Encode_no_colon.
Qed.

End EnvelopeFacts.

(** ** The tree under the file operations *)

Module TreeFacts.

Import OS OSFacts WalkFacts.

Lemma lookup_set_entry_ne (k k' : string) (n : node) (es : list (string * node)) :
  k <> k' -> lookup k (set_entry k' n es) = lookup k es.
Proof.
  intro N. induction es as [|[k0 m] es IH]; cbn.
  - destruct (String.eqb_spec k' k); [congruence | reflexivity].
  - destruct (String.eqb_spec k0 k') as [->|_]; cbn.
    + destruct (String.eqb_spec k' k); [congruence | reflexivity].
    + destruct (String.eqb_spec k0 k); [reflexivity | exact IH].
Qed.

Lemma set_entry_same (k : string) (c : node) (es : list (string * node)) :
  lookup k es = Some c -> set_entry k c es = es.
Proof.
  induction es as [|[k0 m] es IH]; cbn; [discriminate|].
  destruct (String.eqb_spec k0 k) as [->|_].
  - intro H. now injection H as ->.
  - intro H. now rewrite IH.
Qed.

Lemma lookup_remove_entry_ne (k k' : string) (es : list (string * node)) :
  k <> k' -> lookup k (remove_entry k' es) = lookup k es.
Proof.
  intro N. induction es as [|[k0 m] es IH]; cbn; [reflexivity|].
  destruct (String.eqb_spec k0 k') as [->|_]; cbn.
  - destruct (String.eqb_spec k' k); [congruence | reflexivity].
  - destruct (String.eqb_spec k0 k); [reflexivity | exact IH].
Qed.

Lemma lookup_None_names (k : string) (es : list (string * node)) :
  lookup k es = None <-> existsb (String.eqb k) (map fst es) = false.
Proof.
  induction es as [|[k0 m] es IH]; cbn; [tauto|].
  rewrite (String.eqb_sym k k0).
  destruct (String.eqb k0 k); cbn; [split; discriminate | exact IH].
Qed.

(** The node at a path that continues another. *)
Lemma lstat_app (p q : list string) :
  forall t, lstat (p ++ q) t
            = match lstat p t with
              | inr m => lstat q m
              | inl e => inl e
              end.
Proof.
  induction p as [|k p IH]; intro t; cbn; [reflexivity|].
  destruct t as [d|es]; [reflexivity|].
  destruct (lookup k es); [apply IH | reflexivity].
Qed.

(** [MkdirAll] of an existing directory changes nothing. *)
Lemma mkdirAll_existing (elems : list string) :
  forall t es, lstat elems t = inr (Dir es) -> mkdirAll elems t = inr t.
Proof.
  induction elems as [|el rest IH]; intros [d|es0] es; cbn; try discriminate.
  - reflexivity.
  - destruct (lookup el es0) as [c|] eqn:L; [|discriminate].
    intro H. rewrite (IH c es H). now rewrite (set_entry_same _ _ _ L).
Qed.

(** After [MkdirAll] the path names a directory. *)
Lemma mkdirAll_lstat (elems : list string) :
  forall t t', mkdirAll elems t = inr t' -> exists es, lstat elems t' = inr (Dir es).
Proof.
  induction elems as [|el rest IH]; intros [d|es0] t'; cbn; try discriminate.
  - intro H. injection H as <-. now exists es0.
  - destruct (lookup el es0) as [c|].
    + destruct (mkdirAll rest c) as [e|c'] eqn:M; [discriminate|].
      intro H. injection H as <-. cbn. rewrite lookup_set_entry. exact (IH _ _ M).
    + destruct (mkdirAll rest (Dir [])) as [e|c'] eqn:M; [discriminate|].
      intro H. injection H as <-. cbn. rewrite lookup_set_entry. exact (IH _ _ M).
Qed.

(** [MkdirAll] keeps every file. *)
Lemma mkdirAll_frame (elems : list string) :
  forall t t', mkdirAll elems t = inr t' ->
  forall q d, lstat q t = inr (File d) -> lstat q t' = inr (File d).
Proof.
  induction elems as [|el rest IH]; intros [d0|es] t'; cbn; try discriminate.
  - intro H. now injection H as <-.
  - destruct (lookup el es) as [c|] eqn:L.
    + destruct (mkdirAll rest c) as [e|c'] eqn:M; [discriminate|].
      intro H. injection H as <-. intros [|k q] d; cbn; [discriminate|].
      destruct (String.eqb_spec k el) as [->|N].
      * rewrite L, lookup_set_entry. apply (IH _ _ M).
      * now rewrite lookup_set_entry_ne.
    + destruct (mkdirAll rest (Dir [])) as [e|c'] eqn:M; [discriminate|].
      intro H. injection H as <-. intros [|k q] d; cbn; [discriminate|].
      destruct (String.eqb_spec k el) as [->|N].
      * now rewrite L.
      * now rewrite lookup_set_entry_ne.
Qed.

(** [WriteFile] keeps every other file. *)
Lemma writeFile_frame (elems : list string) (data : list byte) :
  forall t t', writeFile elems data t = inr t' ->
  forall q d, q <> elems -> lstat q t = inr (File d) -> lstat q t' = inr (File d).
Proof.
  induction elems as [|el rest IH]; intros [d0|es] t'; cbn; try discriminate.
  destruct rest as [|r rs].
  - destruct (lookup el es) as [[d1|sub]|] eqn:L; try discriminate;
      intro H; injection H as <-; intros [|k q] d Nq; cbn; try discriminate;
      (destruct (String.eqb_spec k el) as [->|N];
       [|now rewrite lookup_set_entry_ne]);
      rewrite L; destruct q; try congruence; cbn; discriminate.
  - destruct (lookup el es) as [c|] eqn:L; [|discriminate].
    destruct (writeFile (r :: rs) data c) as [e|c'] eqn:W; [discriminate|].
    intro H. injection H as <-. intros [|k q] d Nq; cbn; [discriminate|].
    destruct (String.eqb_spec k el) as [->|N].
    + rewrite L, lookup_set_entry. apply (IH _ _ W). congruence.
    + now rewrite lookup_set_entry_ne.
Qed.

Lemma wf_node_Dir_intro (es : list (string * node)) :
  distinct (map fst es) = true ->
  Forall (fun e => wf_node (snd e) = true) es ->
  wf_node (Dir es) = true.
Proof.
  intros Hd Hc. cbn [wf_node]. rewrite Hd. cbn [andb].
  induction Hc as [|[k c] es Hk Hes IH]; [reflexivity|].
  cbn [snd] in Hk. rewrite Hk. cbn [andb]. apply IH.
  cbn [map fst distinct] in Hd. now apply andb_prop in Hd as [_ Hd].
Qed.

Lemma distinct_set_entry (k : string) (n : node) (es : list (string * node)) :
  distinct (map fst es) = true -> distinct (map fst (set_entry k n es)) = true.
Proof.
  induction es as [|[k0 m] es IH]; cbn [set_entry map fst distinct]; [reflexivity|].
  intro H. apply andb_prop in H as [H1 H2].
  destruct (String.eqb_spec k0 k) as [->|N]; cbn [map fst distinct].
  - now rewrite H1, H2.
  - rewrite (IH H2), andb_true_r. apply negb_true_iff.
    apply lookup_None_names. rewrite lookup_set_entry_ne by exact N.
    apply lookup_None_names. now apply negb_true_iff.
Qed.

Lemma Forall_set_entry (P : string * node -> Prop) (k : string) (n : node)
    (es : list (string * node)) :
  (forall k', P (k', n)) -> Forall P es -> Forall P (set_entry k n es).
Proof.
  intros Hn. induction 1 as [|[k0 m] es H0 Hes IH]; cbn.
  - now repeat constructor.
  - destruct (String.eqb k0 k); constructor; auto.
Qed.

Lemma wf_set_entry (k : string) (n : node) (es : list (string * node)) :
  wf_node (Dir es) = true -> wf_node n = true ->
  wf_node (Dir (set_entry k n es)) = true.
Proof.
  intros H Hn. apply wf_node_Dir in H as [Hd Hc].
  apply wf_node_Dir_intro; [now apply distinct_set_entry|].
  now apply Forall_set_entry.
Qed.

Lemma wf_lookup (k : string) (c : node) (es : list (string * node)) :
  wf_node (Dir es) = true -> lookup k es = Some c -> wf_node c = true.
Proof.
  intros H L. apply wf_node_Dir in H as [_ Hc]. apply lookup_In in L.
  rewrite Forall_forall in Hc. exact (Hc (k, c) L).
Qed.

(** [MkdirAll] and [WriteFile] keep the names of every directory distinct. *)
Lemma mkdirAll_wf (elems : list string) :
  forall t t', wf_node t = true -> mkdirAll elems t = inr t' -> wf_node t' = true.
Proof.
  induction elems as [|el rest IH]; intros [d|es] t' Hwf; cbn; try discriminate.
  - intro H. now injection H as <-.
  - destruct (lookup el es) as [c|] eqn:L.
    + destruct (mkdirAll rest c) as [e|c'] eqn:M; [discriminate|].
      intro H. injection H as <-. apply wf_set_entry; [exact Hwf|].
      apply (IH _ _ (wf_lookup _ _ _ Hwf L) M).
    + destruct (mkdirAll rest (Dir [])) as [e|c'] eqn:M; [discriminate|].
      intro H. injection H as <-. apply wf_set_entry; [exact Hwf|].
      apply (IH (Dir []) c'); [reflexivity | exact M].
Qed.

Lemma writeFile_wf (elems : list string) (data : list byte) :
  forall t t', wf_node t = true -> writeFile elems data t = inr t' ->
               wf_node t' = true.
Proof.
  induction elems as [|el rest IH]; intros [d|es] t' Hwf; cbn; try discriminate.
  destruct rest as [|r rs].
  - destruct (lookup el es) as [[d1|sub]|]; try discriminate;
      intro H; injection H as <-; now apply wf_set_entry.
  - destruct (lookup el es) as [c|] eqn:L; [|discriminate].
    destruct (writeFile (r :: rs) data c) as [e|c'] eqn:W; [discriminate|].
    intro H. injection H as <-. apply wf_set_entry; [exact Hwf|].
    apply (IH _ _ (wf_lookup _ _ _ Hwf L) W).
Qed.

Lemma lookup_remove_entry (k : string) (es : list (string * node)) :
  distinct (map fst es) = true -> lookup k (remove_entry k es) = None.
Proof.
  induction es as [|[k0 m] es IH]; cbn [remove_entry map fst distinct];
    [reflexivity|].
  intro H. apply andb_prop in H as [H1 H2].
  destruct (String.eqb_spec k0 k) as [->|N].
  - apply lookup_None_names. now apply negb_true_iff.
  - cbn [lookup]. destruct (String.eqb_spec k0 k); [congruence | now apply IH].
Qed.

(** After [Remove] the path names nothing. *)
Lemma remove_lstat (elems : list string) :
  forall t t', wf_node t = true -> remove elems t = inr t' ->
               lstat elems t' = inl ENOENT.
Proof.
  induction elems as [|el rest IH]; intros [d|es] t' Hwf; cbn; try discriminate.
  destruct rest as [|r rs].
  - apply wf_node_Dir in Hwf as [Hd _].
    destruct (lookup el es) as [[d1|[|x sub]]|]; try discriminate;
      intro H; injection H as <-; cbn; now rewrite lookup_remove_entry.
  - destruct (lookup el es) as [c|] eqn:L; [|discriminate].
    destruct (remove (r :: rs) c) as [e|c'] eqn:R; [discriminate|].
    intro H. injection H as <-. cbn [lstat]. rewrite lookup_set_entry.
    apply (IH _ _ (wf_lookup _ _ _ Hwf L) R).
Qed.

(** [Remove] keeps every other file. *)
Lemma remove_frame (elems : list string) :
  forall t t', remove elems t = inr t' ->
  forall q d, q <> elems -> lstat q t = inr (File d) -> lstat q t' = inr (File d).
Proof.
  induction elems as [|el rest IH]; intros [d0|es] t'; cbn; try discriminate.
  destruct rest as [|r rs].
  - destruct (lookup el es) as [[d1|[|x sub]]|] eqn:L; try discriminate;
      intro H; injection H as <-; intros [|k q] d Nq; cbn; try discriminate;
      (destruct (String.eqb_spec k el) as [->|N];
       [|now rewrite lookup_remove_entry_ne]);
      rewrite L; destruct q; try congruence; cbn; discriminate.
  - destruct (lookup el es) as [c|] eqn:L; [|discriminate].
    destruct (remove (r :: rs) c) as [e|c'] eqn:R; [discriminate|].
    intro H. injection H as <-. intros [|k q] d Nq; cbn; [discriminate|].
    destruct (String.eqb_spec k el) as [->|N].
    + rewrite L, lookup_set_entry. apply (IH _ _ R). congruence.
    + now rewrite lookup_set_entry_ne.
Qed.

(** [MkdirAll] and [WriteFile] keep every directory a directory. *)
Lemma mkdirAll_dir_frame (elems : list string) :
  forall t t', mkdirAll elems t = inr t' ->
  forall q es, lstat q t = inr (Dir es) -> exists es', lstat q t' = inr (Dir es').
Proof.
  induction elems as [|el rest IH]; intros [d0|es0] t'; cbn; try discriminate.
  - intro H. injection H as <-. intros q es L. now exists es.
  - destruct (lookup el es0) as [c|] eqn:L.
    + destruct (mkdirAll rest c) as [e|c'] eqn:M; [discriminate|].
      intro H. injection H as <-. intros [|k q] es; cbn.
      * intros _. now eexists.
      * destruct (String.eqb_spec k el) as [->|N].
        -- rewrite L, lookup_set_entry. apply (IH _ _ M).
        -- rewrite lookup_set_entry_ne by exact N. intro H. now exists es.
    + destruct (mkdirAll rest (Dir [])) as [e|c'] eqn:M; [discriminate|].
      intro H. injection H as <-. intros [|k q] es; cbn.
      * intros _. now eexists.
      * destruct (String.eqb_spec k el) as [->|N].
        -- now rewrite L.
        -- rewrite lookup_set_entry_ne by exact N. intro H. now exists es.
Qed.

Lemma writeFile_dir_frame (elems : list string) (data : list byte) :
  forall t t', writeFile elems data t = inr t' ->
  forall q es, lstat q t = inr (Dir es) -> exists es', lstat q t' = inr (Dir es').
Proof.
  induction elems as [|el rest IH]; intros [d0|es0] t'; cbn; try discriminate.
  destruct rest as [|r rs].
  - destruct (lookup el es0) as [[d1|sub]|] eqn:L; try discriminate;
      intro H; injection H as <-; intros [|k q] es; cbn;
      try (intros _; now eexists);
      (destruct (String.eqb_spec k el) as [->|N];
       [|rewrite lookup_set_entry_ne by exact N; intro H; now exists es]);
      rewrite L; destruct q; cbn; discriminate.
  - destruct (lookup el es0) as [c|] eqn:L; [|discriminate].
    destruct (writeFile (r :: rs) data c) as [e|c'] eqn:W; [discriminate|].
    intro H. injection H as <-. intros [|k q] es; cbn.
    + intros _. now eexists.
    + destruct (String.eqb_spec k el) as [->|N].
      * rewrite L, lookup_set_entry. apply (IH _ _ W).
      * rewrite lookup_set_entry_ne by exact N. intro H. now exists es.
Qed.

End TreeFacts.

(** ** The store operations together *)

Module StoreMoreFacts.

Import OS Storage OSFacts StoreFacts TreeFacts EnvelopeFacts.

(** What [Get] returns, in terms of the file of the entry. *)
Lemma Get_file (s : Store) (name : string) (w : World) (q : list string)
    (d : list byte) :
  resolve (fs w) (Filepath.Join [rootDir s; (name ++ ".pass")%string]) = Some q ->
  lstat q (tree (fs w)) = inr (File d) ->
  fst (Get s name w)
  = match Crypto.Encryptor_Decrypt (encryptor s) (string_of_list_byte d) with
    | Ok p => Ok p
    | Err err => Err (Wrapf "decryption failed" err)
    end.
Proof.
  intros R L. unfold Get, bind, wrap, ReadFile, record. cbn [fs calls].
  rewrite R, L.
  now destruct (Crypto.Encryptor_Decrypt (encryptor s) (string_of_list_byte d)).
Qed.

(** When [Get] succeeds the entry has a file. *)
Lemma Get_ok_file (s : Store) (name : string) (w : World) (v : list byte) :
  fst (Get s name w) = Ok v ->
  exists q d, resolve (fs w) (Filepath.Join [rootDir s; (name ++ ".pass")%string]) = Some q
              /\ lstat q (tree (fs w)) = inr (File d).
Proof.
  unfold Get, bind, wrap, ReadFile, record. cbn [fs calls].
  destruct (resolve (fs w) _) as [q|] eqn:R; [|discriminate].
  destruct (lstat q (tree (fs w))) as [e|[d|es]] eqn:L; try discriminate.
  intros _. now exists q, d.
Qed.

(** What [Add] does to the tree, whether it succeeds or not: the working
    directory stays, every file other than the file of the entry stays, and
    the names of every directory stay distinct. *)
Lemma Add_effect (s : Store) (rnd : Crypto.entropy) (name : string)
    (password : list byte) (w : World) :
  let w' := snd (Add s rnd name password w) in
  cwd (fs w') = cwd (fs w)
  /\ (forall q d,
         resolve (fs w) (Filepath.Join [rootDir s; (name ++ ".pass")%string]) <> Some q ->
         lstat q (tree (fs w)) = inr (File d) ->
         lstat q (tree (fs w')) = inr (File d))
  /\ (wf_node (tree (fs w)) = true -> wf_node (tree (fs w')) = true).
Proof.
  unfold Add.
  destruct (Crypto.Encryptor_Encrypt (encryptor s) rnd password)
    as [encryptedData|err]; [|cbn; auto].
  unfold bind, wrap, MkdirAll, WriteFile, record, with_tree.
  cbn [fs calls tree cwd].
  destruct (resolve (fs w) (Filepath.Dir _)) as [delems|]; [|cbn; auto].
  destruct (mkdirAll delems (tree (fs w))) as [e|t1] eqn:M; [cbn; auto|].
  cbn [fs calls tree cwd]. rewrite resolve_with_tree.
  destruct (resolve (fs w) (Filepath.Join [rootDir s; (name ++ ".pass")%string])) as [felems|] eqn:R.
  2:{ cbn. split; [reflexivity|]. split.
      - intros q d _. apply (mkdirAll_frame _ _ _ M).
      - intro H. apply (mkdirAll_wf _ _ _ H M). }
  destruct (writeFile felems (list_byte_of_string encryptedData) t1)
    as [e|t2] eqn:W.
  { cbn. split; [reflexivity|]. split.
    - intros q d _. apply (mkdirAll_frame _ _ _ M).
    - intro H. apply (mkdirAll_wf _ _ _ H M). }
  cbn. split; [reflexivity|]. split.
  - intros q d N L. apply (writeFile_frame _ _ _ _ W); [congruence|].
    now apply (mkdirAll_frame _ _ _ M).
  - intro H. apply (writeFile_wf _ _ _ _ (mkdirAll_wf _ _ _ H M) W).
Qed.

(** X3.  In a store on an SSH encryptor that holds a signer, after a
    successful [Add] of a name, whatever was stored under the name before,
    [Get] of the same name returns exactly the secret added. *)
Theorem Add_then_Get
    (e : Crypto.SSHEncryptor) (root name : string) (rnd : Crypto.entropy)
    (P : list byte) (w w' : World) :
  Crypto.privateKeys e <> [] ->
  Add {| rootDir := root; encryptor := Crypto.SSHEncryptor_Encryptor e |}
      rnd name P w = (Ok tt, w') ->
  fst (Get {| rootDir := root; encryptor := Crypto.SSHEncryptor_Encryptor e |}
           name w') = Ok P.
Proof.
  intros Hk H. apply Add_Get in H as (env & He & ->).
  cbn [encryptor Crypto.SSHEncryptor_Encryptor Crypto.Encryptor_Encrypt
       Crypto.Encryptor_Decrypt] in *.
  now rewrite (Decrypt_Encrypt e e rnd P env Hk He).
Qed.

Lemma Add_then_Get_witness :
  fst (Get Sample.store "email/work"
           (snd (Add Sample.store (Ok Sample.key1) "email/work" Sample.secret
                     Sample.world_a_abang))) = Ok Sample.secret.
Proof.
  apply (Add_then_Get Sample.alice_both "/store" "email/work" (Ok Sample.key1)
           Sample.secret Sample.world_a_abang).
  - discriminate.
  - vm_compute; reflexivity.
Defined.

(** X4.  [Add] of one entry, successful or not, leaves every other
    readable entry as it was: when the two names have different files,
    what [Get] returned for the other name before is what it returns
    after. *)
Theorem Add_keeps_other_entries
    (s : Store) (rnd : Crypto.entropy) (name other : string)
    (password v : list byte) (w : World) :
  resolve (fs w) (Filepath.Join [rootDir s; (name ++ ".pass")%string]) <> resolve (fs w) (Filepath.Join [rootDir s; (other ++ ".pass")%string]) ->
  fst (Get s other w) = Ok v ->
  fst (Get s other (snd (Add s rnd name password w))) = Ok v.
Proof.
  intros N G. destruct (Get_ok_file _ _ _ _ G) as (q & d & R & L).
  rewrite (Get_file _ _ _ _ _ R L) in G.
  destruct (Add_effect s rnd name password w) as (Hc & Hf & _).
  rewrite (Get_file s other _ q d); [exact G | |].
  - unfold resolve in *. now rewrite Hc.
  - apply Hf; [|exact L]. congruence.
Qed.

Lemma Add_keeps_other_entries_witness :
  fst (Get Sample.store "a!"
           (snd (Add Sample.store (Ok Sample.key1) "a" (Sample.bytes "new")
                     Sample.world_a_abang))) = Ok Sample.secret.
Proof.
  apply (Add_keeps_other_entries Sample.store (Ok Sample.key1) "a" "a!").
  - vm_compute; discriminate.
  - vm_compute; reflexivity.
Defined.

(** A successful [Delete]: the file of the entry was removed. *)
Lemma Delete_ok_inv (s : Store) (name : string) (w w' : World) :
  Delete s name w = (Ok tt, w') ->
  exists q, resolve (fs w) (Filepath.Join [rootDir s; (name ++ ".pass")%string])
            = Some q
            /\ remove q (tree (fs w)) = inr (tree (fs w'))
            /\ cwd (fs w') = cwd (fs w).
Proof.
  unfold Delete, wrap, Remove, record, with_tree. cbn [fs calls tree cwd].
  destruct (resolve (fs w) _) as [q|] eqn:R; [|discriminate].
  destruct (remove q (tree (fs w))) as [e|t'] eqn:M; [discriminate|].
  intro H. injection H as <-. now exists q.
Qed.

Lemma remove_missing (elems : list string) :
  forall t, lstat elems t = inl ENOENT -> remove elems t = inl ENOENT.
Proof.
  induction elems as [|el rest IH]; intros [d|es]; cbn; try discriminate.
  destruct (lookup el es) as [c|] eqn:L.
  - destruct rest as [|r rs]; [discriminate|].
    intro H. now rewrite (IH c H).
  - intros _. now destruct rest.
Qed.

(** X5.  After a successful [Delete] of a name, [Get] of the name fails
    because the file does not exist, a second [Delete] fails in the same
    way, and every other entry that [Get] could read reads the same. *)
Theorem Delete_removes_entry
    (s : Store) (name other : string) (v : list byte) (w w' : World) :
  wf_node (tree (fs w)) = true ->
  Delete s name w = (Ok tt, w') ->
  fst (Get s name w')
  = Err (Wrapf "failed to read password file"
           (PathError "open" (Filepath.Join [rootDir s; (name ++ ".pass")%string])
                      ENOENT))
  /\ fst (Delete s name w')
     = Err (Wrapf "failed to delete password file"
              (PathError "remove"
                 (Filepath.Join [rootDir s; (name ++ ".pass")%string]) ENOENT))
  /\ (resolve (fs w) (Filepath.Join [rootDir s; (name ++ ".pass")%string])
      <> resolve (fs w) (Filepath.Join [rootDir s; (other ++ ".pass")%string]) ->
      fst (Get s other w) = Ok v ->
      fst (Get s other w') = Ok v).
Proof.
  intros Hwf H. apply Delete_ok_inv in H as (q & R & M & Hc).
  assert (R' : forall p, resolve (fs w') p = resolve (fs w) p)
    by (intro p; unfold resolve; now rewrite Hc).
  pose proof (remove_lstat _ _ _ Hwf M) as L.
  split; [|split].
  - unfold Get, bind, wrap, ReadFile, record. cbn [fs calls].
    now rewrite R', R, L.
  - unfold Delete, wrap, Remove, record. cbn [fs calls].
    now rewrite R', R, (remove_missing _ _ L).
  - intros N G. destruct (Get_ok_file _ _ _ _ G) as (q2 & d & R2 & L2).
    rewrite (Get_file _ _ _ _ _ R2 L2) in G.
    rewrite (Get_file s other w' q2 d); [exact G | now rewrite R' |].
    apply (remove_frame _ _ _ M); [congruence | exact L2].
Qed.

Lemma Delete_removes_entry_witness :
  let w' := snd (Delete Sample.store "a" Sample.world_a_abang) in
  fst (Get Sample.store "a" w')
  = Err (Wrapf "failed to read password file"
           (PathError "open" "/store/a.pass" ENOENT))
  /\ fst (Delete Sample.store "a" w')
     = Err (Wrapf "failed to delete password file"
              (PathError "remove" "/store/a.pass" ENOENT))
  /\ fst (Get Sample.store "a!" w') = Ok Sample.secret.
Proof.
  destruct (Delete_removes_entry Sample.store "a" "a!" Sample.secret
              Sample.world_a_abang
              (snd (Delete Sample.store "a" Sample.world_a_abang)))
    as (H1 & H2 & H3).
  - vm_compute; reflexivity.
  - vm_compute; reflexivity.
  - intro w'. split; [exact H1 | split; [exact H2 | apply H3]].
    + vm_compute; discriminate.
    + vm_compute; reflexivity.
Defined.



(** X7.  [Add] encrypts before it touches the file system: in a store on
    an SSH encryptor, when the encryptor has no recipient, or when the read
    of the random key fails, [Add] returns the encryption error and makes
    no call on the file system (no directory is created). *)
Theorem Add_encryption_failure
    (e : Crypto.SSHEncryptor) (root name : string) (rnd : Crypto.entropy)
    (P : list byte) (w : World) :
  let s := {| rootDir := root; encryptor := Crypto.SSHEncryptor_Encryptor e |} in
  (Crypto.publicKeys e = [] ->
   Add s rnd name P w
   = (Err (Wrapf "encryption failed"
             (New "no public keys available for encryption")), w))
  /\ (forall err,
         Crypto.publicKeys e <> [] -> rnd = Err err ->
         Add s rnd name P w
         = (Err (Wrapf "encryption failed"
                   (Wrapf "failed to generate random key" err)), w)).
Proof.
  intro s. unfold Add, s.
  cbn [encryptor Crypto.SSHEncryptor_Encryptor Crypto.Encryptor_Encrypt].
  unfold Crypto.Encrypt. split.
  - intros ->. reflexivity.
  - intros err N ->. destruct (Crypto.publicKeys e); [congruence | reflexivity].
Qed.

Lemma Add_encryption_failure_witness :
  Add {| rootDir := "/store";
         encryptor := Crypto.SSHEncryptor_Encryptor Sample.no_keys |}
      (Ok Sample.key1) "email/work" Sample.secret Sample.empty_store_world
  = (Err (Wrapf "encryption failed"
            (New "no public keys available for encryption")),
     Sample.empty_store_world).
Proof.
  apply (Add_encryption_failure Sample.no_keys "/store" "email/work"
           (Ok Sample.key1) Sample.secret Sample.empty_store_world).
  reflexivity.
Defined.

End StoreMoreFacts.

(** ** Adding an entry, then listing *)

Module AddListFacts.

Import Strings Filepath OS Storage OrderFacts WalkFacts StringFacts PathFacts
       OSFacts StoreFacts TreeFacts StoreMoreFacts.



Lemma Join_app_last (init : list string) (l x sep : string) :
  Strings.Join (init ++ [(l ++ x)%string]) sep
  = (Strings.Join (init ++ [l]) sep ++ x)%string.
Proof.
  unfold Strings.Join. induction init as [|a init IH]; [reflexivity|].
  cbn [app]. destruct init as [|b init].
  - cbn. now rewrite !append_assoc.
  - change (String.concat sep (a :: (b :: init) ++ [(l ++ x)%string]))
      with (a ++ sep ++ String.concat sep ((b :: init) ++ [(l ++ x)%string]))%string.
    change (String.concat sep (a :: (b :: init) ++ [l]))
      with (a ++ sep ++ String.concat sep ((b :: init) ++ [l]))%string.
    now rewrite IH, !append_assoc.
Qed.

Lemma substring_prefix (s t : string) :
  substring 0 (String.length s) (s ++ t) = s.
Proof.
  induction s as [|c s IH]; cbn.
  - now destruct t.
  - now rewrite IH.
Qed.

Lemma substring_suffix (s t : string) :
  substring (String.length s) (String.length t) (s ++ t) = t.
Proof.
  induction s as [|c s IH]; cbn; [|exact IH].
  rewrite <- (append_nil_r t) at 2. apply substring_prefix.
Qed.

Lemma HasSuffix_app (s suffix : string) : HasSuffix (s ++ suffix) suffix = true.
Proof.
  unfold HasSuffix. rewrite length_append.
  replace (String.length s + String.length suffix - String.length suffix)%nat
    with (String.length s) by lia.
  rewrite substring_suffix, String.eqb_refl, andb_true_r.
  apply Nat.leb_le. lia.
Qed.

(** Trimming a suffix that was appended. *)
Lemma TrimSuffix_app (s suffix : string) : TrimSuffix (s ++ suffix) suffix = s.
Proof.
  unfold TrimSuffix. rewrite HasSuffix_app, length_append.
  replace (String.length s + String.length suffix - String.length suffix)%nat
    with (String.length s) by lia.
  apply substring_prefix.
Qed.

Lemma names_kept (l : list string) :
  forallb is_name l = true -> filter kept l = l.
Proof.
  induction l as [|x l IH]; cbn [forallb filter]; [reflexivity|].
  intro H. apply andb_prop in H as [Hx Hl].
  unfold is_name in Hx. destruct (kept x); [|discriminate].
  now rewrite IH.
Qed.

Lemma names_no_dotdot (l : list string) :
  forallb is_name l = true -> existsb (String.eqb "..") l = false.
Proof.
  induction l as [|x l IH]; cbn [forallb existsb]; [reflexivity|].
  intro H. apply andb_prop in H as [Hx Hl].
  apply is_name_inv in Hx as (_ & _ & Hx & _).
  now rewrite String.eqb_sym, Hx, IH.
Qed.

(** The file of an entry whose name is made of file names: the elements of
    the root, then those of the name, the last with the extension. *)
Lemma entry_file_elements (f : FS) (root name : string) (init : list string)
    (l : string) :
  rooted root = true ->
  elements name = init ++ [l] ->
  forallb is_name (elements name) = true ->
  resolve f (Filepath.Join [root; (name ++ ".pass")%string])
  = Some (clean_elements true (elements root) []
          ++ init ++ [(l ++ ".pass")%string]).
Proof.
  intros Hr E Hn. destruct (rooted_inv root Hr) as [rest ->].
  destruct (Split_app_no_sep name ".pass" Separator eq_refl)
    as (init' & l' & E1 & E2).
  unfold elements in E. rewrite E in E1. apply app_inj_tail in E1 as [<- <-].
  cbn [Filepath.Join String.eqb].
  change (Strings.Join [String Separator rest; (name ++ ".pass")%string] "/")
    with (String Separator rest ++ String Separator (name ++ ".pass"))%string.
  rewrite resolve_Clean_rooted by reflexivity.
  change (resolve f (String Separator rest
                     ++ String Separator (name ++ ".pass")))
    with (Some (clean_elements true
                  (elements (String Separator rest
                             ++ String Separator (name ++ ".pass"))) [])).
  f_equal. unfold elements in *.
  rewrite Split_app_sep, clean_elements_app, E2.
  rewrite E in Hn. rewrite forallb_app in Hn. apply andb_prop in Hn as [Hi _].
  rewrite clean_elements_no_dotdot.
  - rewrite rev_involutive, filter_app. cbn [filter].
    now rewrite kept_pass, (names_kept _ Hi).
  - rewrite existsb_app. cbn [existsb].
    now rewrite (names_no_dotdot _ Hi), not_dotdot_pass.
Qed.

Lemma wf_lstat (p : list string) :
  forall t m, wf_node t = true -> lstat p t = inr m -> wf_node m = true.
Proof.
  induction p as [|k p IH]; intros t m Hwf; cbn.
  - intro H. now injection H as <-.
  - destruct t as [d|es]; [discriminate|].
    destruct (lookup k es) as [c|] eqn:L; [|discriminate].
    apply IH. exact (wf_lookup _ _ _ Hwf L).
Qed.




End AddListFacts.

(** ** Loading keys *)

Module KeyLoadingFacts.

Import OS Crypto KeyLoading EnvelopeFacts.

Lemma ReadFile_world (path : string) (w : World) :
  fs (snd (ReadFile path w)) = fs w
  /\ calls (snd (ReadFile path w)) = calls w ++ [CallReadFile path].
Proof.
  unfold ReadFile, record. cbn [fs calls].
  destruct (resolve (fs w) path) as [elems|]; [|now split].
  destruct (lstat elems (tree (fs w))) as [e|[d|es]]; now split.
Qed.

(** X9.  [NewSSHEncryptor] never fails.  The encryptor it returns has no
    key, so that [Encrypt] and [Decrypt] fail on it, and it has an agent
    client exactly when the agent is allowed, [SSH_AUTH_SOCK] is set and the
    connection to the socket succeeds. *)
Theorem NewSSHEncryptor_fresh (env : Env) (allowAgent : bool) :
  exists e,
    NewSSHEncryptor env allowAgent = Ok e
    /\ publicKeys e = [] /\ privateKeys e = [] /\ useAgent e = allowAgent
    /\ agentClient e
       = (if allowAgent && negb (String.eqb (SSH_AUTH_SOCK env) "")
          then match Dial env (SSH_AUTH_SOCK env) with
               | Ok client => Some client
               | Err _ => None
               end
          else None)
    /\ (forall rnd P,
           fst (Encrypt e rnd P)
           = Err (New "no public keys available for encryption"))
    /\ (forall s,
           fst (Decrypt e s)
           = Err (New "no private keys available for decryption")).
Proof.
  unfold NewSSHEncryptor, connectToAgent. destruct allowAgent; cbn [andb].
  - destruct (String.eqb (SSH_AUTH_SOCK env) ""); cbn [negb snd].
    + eexists. repeat split.
    + destruct (Dial env (SSH_AUTH_SOCK env)); cbn [snd]; eexists; repeat split.
  - eexists. repeat split.
Qed.

(** What [AddPublicKeyFromFile] returns: an error and the encryptor as it
    was, or the encryptor with the key of the file added. *)
Lemma AddPublicKeyFromFile_cases (env : Env) (e : SSHEncryptor) (path : string)
    (w : World) :
  (exists err,
      AddPublicKeyFromFile env e path w
      = ((Some err, e), snd (ReadFile path w)))
  \/ (exists data k,
         fst (ReadFile path w) = Ok data
         /\ ParseAuthorizedKey env data = Ok k
         /\ AddPublicKeyFromFile env e path w
            = ((None, with_publicKeys (publicKeys e ++ [k]) e),
               snd (ReadFile path w))).
Proof.
  unfold AddPublicKeyFromFile.
  destruct (ReadFile path w) as [[data|err] w']; cbn [fst snd].
  - destruct (ParseAuthorizedKey env data) as [k|err] eqn:E.
    + right. now exists data, k.
    + left. now eexists.
  - left. now eexists.
Qed.

(** What [AddPrivateKeyFromFile] returns: an error and the encryptor as it
    was, or the encryptor with at least one signer added; the file system
    is as it was. *)
Lemma AddPrivateKeyFromFile_cases (env : Env) (e : SSHEncryptor)
    (path : string) (passphrase : list byte) (w : World) :
  let r := AddPrivateKeyFromFile env e path passphrase w in
  fs (snd r) = fs w
  /\ ((exists err, fst r = (Some err, e))
      \/ (exists signers,
             signers <> []
             /\ fst r = (None, with_privateKeys (privateKeys e ++ signers) e))).
Proof.
  assert (Hfile : let r := addPrivateKeyFromFile_file env e path passphrase w in
    fs (snd r) = fs w
    /\ ((exists err, fst r = (Some err, e))
        \/ (exists signers,
               signers <> []
               /\ fst r = (None, with_privateKeys (privateKeys e ++ signers) e)))).
  { unfold addPrivateKeyFromFile_file.
    pose proof (ReadFile_world path w) as [Hf _].
    destruct (ReadFile path w) as [[data|err] w']; cbn [fst snd] in *.
    - destruct (if (0 <? List.length passphrase)%nat
                then ParsePrivateKeyWithPassphrase env data passphrase
                else ParsePrivateKey env data) as [signer|err]; cbn [fst snd].
      + split; [exact Hf|]. right. exists [signer]. split; [discriminate | reflexivity].
      + split; [exact Hf|]. left. now eexists.
    - split; [exact Hf|]. left. now eexists. }
  unfold AddPrivateKeyFromFile.
  destruct (useAgent e); [|exact Hfile].
  destruct (agentClient e) as [client|]; [|exact Hfile].
  destruct (AgentSigners env client) as [signers|err]; [|exact Hfile].
  destruct signers as [|x signers]; cbn [List.length Nat.ltb Nat.leb]; [exact Hfile|].
  cbn [fst snd]. split; [reflexivity|]. right.
  exists (x :: signers). split; [discriminate | reflexivity].
Qed.

(** X10.  [AddPublicKeyFromFile] either fails, and leaves the encryptor
    exactly as it was, or succeeds, and then the file was read, its content
    parsed to a key, and that key is the last recipient after all the
    earlier ones (a key already registered is added again): the envelopes
    [Encrypt] makes from then on have the slots of the earlier recipients
    followed by the slot of the new key.  The signers and the agent are
    never touched and the file system is only read. *)
Theorem AddPublicKeyFromFile_appends (env : Env) (e : SSHEncryptor)
    (path : string) (w : World) :
  let r := AddPublicKeyFromFile env e path w in
  fs (snd r) = fs w
  /\ calls (snd r) = calls w ++ [CallReadFile path]
  /\ privateKeys (snd (fst r)) = privateKeys e
  /\ agentClient (snd (fst r)) = agentClient e
  /\ useAgent (snd (fst r)) = useAgent e
  /\ match fst (fst r) with
     | Some _ => snd (fst r) = e
     | None =>
         exists data k,
           fst (ReadFile path w) = Ok data
           /\ ParseAuthorizedKey env data = Ok k
           /\ publicKeys (snd (fst r)) = publicKeys e ++ [k]
           /\ forall key P,
                exists envelope,
                  Encrypt (snd (fst r)) (Ok key) P = (Ok envelope, snd (fst r))
                  /\ slots envelope = map slot_of (publicKeys e) ++ [slot_of k]
     end.
Proof.
  intro r. subst r. pose proof (ReadFile_world path w) as [Hf Hc].
  destruct (AddPublicKeyFromFile_cases env e path w)
    as [[err ->]|(data & k & Hr & Hp & ->)]; cbn [fst snd].
  - now repeat split.
  - repeat split; try assumption. exists data, k. repeat split; try assumption.
    intros key P. eexists. split.
    + apply CryptoFacts.Encrypt_ok. cbn [publicKeys with_publicKeys].
      now destruct (publicKeys e).
    + cbn [publicKeys with_publicKeys]. rewrite slots_of_envelope.
      * now rewrite map_app.
      * now destruct (publicKeys e).
Qed.

(** X11.  Whatever [AddPrivateKeyFromFile] does, it leaves the file system
    as it was and the recipients as they were; when it fails the encryptor
    is exactly as before, and when it succeeds the earlier signers are
    kept, in order, followed by at least one new signer, so that [Decrypt]
    no longer fails for want of a private key. *)
Theorem AddPrivateKeyFromFile_appends (env : Env) (e : SSHEncryptor)
    (path : string) (passphrase : list byte) (w : World) :
  let r := AddPrivateKeyFromFile env e path passphrase w in
  fs (snd r) = fs w
  /\ publicKeys (snd (fst r)) = publicKeys e
  /\ match fst (fst r) with
     | Some _ => snd (fst r) = e
     | None =>
         (exists signers,
             signers <> []
             /\ privateKeys (snd (fst r)) = privateKeys e ++ signers)
         /\ forall s,
              fst (Decrypt (snd (fst r)) s)
              <> Err (New "no private keys available for decryption")
     end.
Proof.
  intro r. subst r.
  destruct (AddPrivateKeyFromFile_cases env e path passphrase w)
    as (Hf & [[err Hr]|(signers & N & Hr)]); rewrite Hr; cbn [fst snd].
  - now repeat split.
  - repeat split; [exact Hf | now exists signers |].
    intro s. unfold Decrypt. cbn [privateKeys with_privateKeys].
    destruct (privateKeys e ++ signers) as [|x l] eqn:E.
    + apply app_eq_nil in E as [_ E]. congruence.
    + cbn [List.length Nat.eqb].
      destruct (List.length (Strings.Split s ":") <? 2)%nat; [discriminate|].
      now destruct (Base64.DecodeString (nth 0 (Strings.Split s ":") ""))
        as [bs [err|]].
Qed.

(** With an agent in use that is connected and offers at least one
    signer, [AddPrivateKeyFromFile] adds the signers of the agent and makes
    no call on the file system: the key file is not read, so that the call
    succeeds whatever the path and the passphrase, even when no such file
    exists. *)
Theorem AddPrivateKeyFromFile_prefers_agent (env : Env) (e : SSHEncryptor)
    (client : Agent) (signers : list Signer) (path : string)
    (passphrase : list byte) (w : World) :
  useAgent e = true ->
  agentClient e = Some client ->
  AgentSigners env client = Ok signers ->
  signers <> [] ->
  AddPrivateKeyFromFile env e path passphrase w
  = ((None, with_privateKeys (privateKeys e ++ signers) e), w).
Proof.
  intros Hu Hc Hs N. unfold AddPrivateKeyFromFile. rewrite Hu, Hc, Hs.
  destruct signers; [congruence | reflexivity].
Qed.

Lemma AddPrivateKeyFromFile_prefers_agent_witness :
  AddPrivateKeyFromFile Fixture.env_agent Fixture.fresh_agent "/no/such/file" []
                        Fixture.home_world
  = ((None, with_privateKeys [Sample.alice] Fixture.fresh_agent),
     Fixture.home_world).
Proof.
  apply (AddPrivateKeyFromFile_prefers_agent Fixture.env_agent
           Fixture.fresh_agent {| Signers := [Sample.alice] |} [Sample.alice]).
  - reflexivity.
  - reflexivity.
  - reflexivity.
  - discriminate.
Defined.

End KeyLoadingFacts.

(** ** The command line *)

Module CLIFacts.

Import OS Crypto KeyLoading CLI KeyLoadingFacts EnvelopeFacts StringFacts.

Lemma eqb_append_prefix (a x y : string) :
  String.eqb (a ++ x) (a ++ y) = String.eqb x y.
Proof.
  induction a as [|c a IH]; cbn; [reflexivity|].
  now rewrite Ascii.eqb_refl.
Qed.

(** The errors of [AddPrivateKeyFromFile]. *)
Lemma AddPrivateKeyFromFile_error (env : Env) (e : SSHEncryptor) (path : string)
    (passphrase : list byte) (w : World) (err : error) :
  fst (fst (AddPrivateKeyFromFile env e path passphrase w)) = Some err ->
  (exists cause, err = Wrapf "failed to read private key file" cause)
  \/ (exists data cause,
         fst (ReadFile path w) = Ok data
         /\ (if (0 <? List.length passphrase)%nat
             then ParsePrivateKeyWithPassphrase env data passphrase
             else ParsePrivateKey env data) = Err cause
         /\ err = Wrapf "failed to parse private key" cause).
Proof.
  assert (Hfile :
    fst (fst (addPrivateKeyFromFile_file env e path passphrase w)) = Some err ->
    (exists cause, err = Wrapf "failed to read private key file" cause)
    \/ (exists data cause,
           fst (ReadFile path w) = Ok data
           /\ (if (0 <? List.length passphrase)%nat
               then ParsePrivateKeyWithPassphrase env data passphrase
               else ParsePrivateKey env data) = Err cause
           /\ err = Wrapf "failed to parse private key" cause)).
  { unfold addPrivateKeyFromFile_file.
    destruct (ReadFile path w) as [[data|e0] w']; cbn [fst snd].
    - destruct (if (0 <? List.length passphrase)%nat
                then ParsePrivateKeyWithPassphrase env data passphrase
                else ParsePrivateKey env data) as [signer|cause] eqn:E;
        cbn [fst snd]; [discriminate|].
      intro H. injection H as <-. right. now exists data, cause.
    - intro H. injection H as <-. left. now eexists. }
  unfold AddPrivateKeyFromFile.
  destruct (useAgent e); [|exact Hfile].
  destruct (agentClient e) as [client|]; [|exact Hfile].
  destruct (AgentSigners env client) as [signers|e0]; [|exact Hfile].
  destruct signers as [|x signers]; cbn [List.length Nat.ltb Nat.leb];
    [exact Hfile | discriminate].
Qed.

(** X12.  For an error returned by [AddPrivateKeyFromFile],
    [isPassphraseError] holds exactly when the key file was read and its
    parsing failed with an error whose message is "ssh: this private key
    is passphrase protected"; an error of reading the file is never taken
    for a missing passphrase. *)
Theorem isPassphraseError_AddPrivateKeyFromFile
    (env : Env) (e : SSHEncryptor) (path : string) (passphrase : list byte)
    (w : World) (err : error) :
  fst (fst (AddPrivateKeyFromFile env e path passphrase w)) = Some err ->
  (isPassphraseError (Some err) = true <->
   exists data cause,
     fst (ReadFile path w) = Ok data
     /\ (if (0 <? List.length passphrase)%nat
         then ParsePrivateKeyWithPassphrase env data passphrase
         else ParsePrivateKey env data) = Err cause
     /\ err = Wrapf "failed to parse private key" cause
     /\ Error cause = "ssh: this private key is passphrase protected").
Proof.
  intro H. apply AddPrivateKeyFromFile_error in H
    as [[cause ->]|(data & cause & Hr & Hp & ->)].
  - split; [discriminate|]. intros (d0 & c0 & _ & _ & E & _). discriminate.
  - assert (Hi : isPassphraseError (Some (Wrapf "failed to parse private key" cause))
                 = String.eqb (Error cause)
                     "ssh: this private key is passphrase protected").
    { unfold isPassphraseError. cbn [Error orb].
      change "failed to parse private key: ssh: this private key is passphrase protected"
        with ("failed to parse private key"
              ++ ": " ++ "ssh: this private key is passphrase protected")%string.
      rewrite <- !append_assoc, eqb_append_prefix. reflexivity. }
    rewrite Hi. split.
    + intro E. apply String.eqb_eq in E. now exists data, cause.
    + intros (d0 & cause' & _ & _ & E & Hm). injection E as <-.
      now apply String.eqb_eq.
Qed.

Lemma isPassphraseError_AddPrivateKeyFromFile_witness :
  isPassphraseError
    (fst (fst (AddPrivateKeyFromFile Fixture.env Fixture.fresh
                 "/home/alice/.ssh/locked" [] Fixture.home_world))) = true.
Proof.
  apply (isPassphraseError_AddPrivateKeyFromFile Fixture.env Fixture.fresh
           "/home/alice/.ssh/locked" [] Fixture.home_world
           (Wrapf "failed to parse private key"
                  (New "ssh: this private key is passphrase protected"))).
  - vm_compute; reflexivity.
  - exists (Sample.bytes "ENCRYPTED key"),
           (New "ssh: this private key is passphrase protected").
    repeat split; vm_compute; reflexivity.
Defined.

Lemma NewSSHEncryptor_ok (env : Env) (allowAgent : bool) :
  exists e0, NewSSHEncryptor env allowAgent = Ok e0
             /\ publicKeys e0 = [] /\ privateKeys e0 = [].
Proof.
  unfold NewSSHEncryptor, connectToAgent. destruct allowAgent.
  - destruct (String.eqb (SSH_AUTH_SOCK env) ""); cbn [snd].
    + now eexists.
    + destruct (Dial env (SSH_AUTH_SOCK env)); cbn [snd]; now eexists.
  - now eexists.
Qed.

(** A successful [AddPublicKeyFromFile] on an encryptor with no recipient
    leaves one, and the signers as they were. *)
Lemma AddPublicKeyFromFile_ok (env : Env) (e e' : SSHEncryptor) (path : string)
    (w w' : World) :
  AddPublicKeyFromFile env e path w = ((None, e'), w') ->
  fs w' = fs w
  /\ (exists k, publicKeys e' = publicKeys e ++ [k])
  /\ privateKeys e' = privateKeys e.
Proof.
  intro H. pose proof (ReadFile_world path w) as [Hf _].
  destruct (AddPublicKeyFromFile_cases env e path w)
    as [[err E]|(data & k & _ & _ & E)]; rewrite E in H; [discriminate|].
  injection H as <- <-. split; [exact Hf|]. split; [now exists k | reflexivity].
Qed.

Lemma AddPrivateKeyFromFile_ok (env : Env) (e e' : SSHEncryptor) (path : string)
    (passphrase : list byte) (w w' : World) :
  AddPrivateKeyFromFile env e path passphrase w = ((None, e'), w') ->
  fs w' = fs w /\ publicKeys e' = publicKeys e /\ privateKeys e' <> [].
Proof.
  intro H.
  destruct (AddPrivateKeyFromFile_cases env e path passphrase w)
    as (Hf & [[err E]|(signers & N & E)]); rewrite H in *; cbn [fst snd] in *;
    [discriminate|].
  injection E as ->. split; [exact Hf|]. split; [reflexivity|].
  cbn [privateKeys with_privateKeys]. intro E.
  apply app_eq_nil in E as [_ E]. congruence.
Qed.

Lemma AddPrivateKeyFromFile_err (env : Env) (e e' : SSHEncryptor) (path : string)
    (passphrase : list byte) (w w' : World) (err : error) :
  AddPrivateKeyFromFile env e path passphrase w = ((Some err, e'), w') ->
  fs w' = fs w /\ e' = e.
Proof.
  intro H.
  destruct (AddPrivateKeyFromFile_cases env e path passphrase w)
    as (Hf & [[err' E]|(signers & N & E)]); rewrite H in *; cbn [fst snd] in *;
    [|discriminate].
  injection E as _ ->. now split.
Qed.

(** X13.  When [setupEncryptor] succeeds, the encryptor it hands to the
    commands has exactly one recipient and at least one signer, the file
    system is as it was, and the encryptor works: [Encrypt] succeeds on
    every secret (once the random key is read) and [Decrypt] gives the
    secret back. *)
Theorem setupEncryptor_usable
    (env : Env) (home publicKeyPath privateKeyPath : string) (noAgent : bool)
    (tty : result (list byte)) (w w' : World) (e : SSHEncryptor) :
  setupEncryptor env home publicKeyPath privateKeyPath noAgent tty w
  = (Ok e, w') ->
  fs w' = fs w
  /\ (exists k, publicKeys e = [k])
  /\ privateKeys e <> []
  /\ forall key P,
       exists envelope,
         Encrypt e (Ok key) P = (Ok envelope, e)
         /\ Decrypt e envelope = (Ok P, e).
Proof.
  unfold setupEncryptor.
  destruct (NewSSHEncryptor_ok env (negb noAgent)) as (e0 & -> & Hp0 & Hs0).
  set (pub := if String.eqb publicKeyPath "" then _ else publicKeyPath).
  set (priv := if String.eqb privateKeyPath "" then _ else privateKeyPath).
  destruct (String.eqb pub ""); [discriminate|].
  destruct (String.eqb priv ""); [discriminate|].
  destruct (AddPublicKeyFromFile env e0 pub w) as [[[err|] e1] w1] eqn:A1;
    [discriminate|].
  apply AddPublicKeyFromFile_ok in A1 as (Hf1 & [k Hk] & Hs1).
  rewrite Hp0 in Hk. cbn [app] in Hk.
  assert (Hfin : forall e2 w2,
    fs w2 = fs w -> publicKeys e2 = [k] -> privateKeys e2 <> [] ->
    (Ok e2, w2) = (Ok e, w') ->
    fs w' = fs w
    /\ (exists k, publicKeys e = [k])
    /\ privateKeys e <> []
    /\ forall key P,
         exists envelope,
           Encrypt e (Ok key) P = (Ok envelope, e)
           /\ Decrypt e envelope = (Ok P, e)).
  { intros e2 w2 Hf Hp Hs H. injection H as <- <-.
    split; [exact Hf|]. split; [now exists k|]. split; [exact Hs|].
    intros key P. eexists. split.
    - apply CryptoFacts.Encrypt_ok. now rewrite Hp.
    - apply (Decrypt_Encrypt e2 e2 (Ok key) P); [exact Hs|].
      rewrite CryptoFacts.Encrypt_ok by now rewrite Hp. reflexivity. }
  destruct (AddPrivateKeyFromFile env e1 priv [] w1) as [[[err|] e2] w2] eqn:A2.
  - apply AddPrivateKeyFromFile_err in A2 as [Hf2 ->].
    destruct (isPassphraseError (Some err)); [|discriminate].
    destruct tty as [passphrase|terr]; [|discriminate].
    destruct (AddPrivateKeyFromFile env e1 priv passphrase w2)
      as [[[err3|] e3] w3] eqn:A3; [discriminate|].
    apply AddPrivateKeyFromFile_ok in A3 as (Hf3 & Hp3 & Hs3).
    apply Hfin; [congruence | congruence | exact Hs3].
  - apply AddPrivateKeyFromFile_ok in A2 as (Hf2 & Hp2 & Hs2).
    apply Hfin; [congruence | congruence | exact Hs2].
Qed.

Lemma setupEncryptor_usable_witness :
  let r := setupEncryptor Fixture.env "/home/alice" "" "" true (Err ErrUnexpectedEOF)
                          Fixture.home_world in
  exists e, fst r = Ok e
            /\ (exists k, publicKeys e = [k])
            /\ privateKeys e <> []
            /\ forall key P,
                 exists envelope,
                   Encrypt e (Ok key) P = (Ok envelope, e)
                   /\ Decrypt e envelope = (Ok P, e).
Proof.
  intro r.
  destruct (fst r) as [e|err] eqn:E; [|vm_compute in E; discriminate].
  exists e. split; [reflexivity|].
  apply (setupEncryptor_usable Fixture.env "/home/alice" "" "" true
           (Err ErrUnexpectedEOF) Fixture.home_world (snd r) e).
  subst r. rewrite <- E. now destruct (setupEncryptor _ _ _ _ _ _ _).
Defined.

(** X14.  With the agent allowed, connected and offering at least one
    signer, [setupEncryptor] with a public key file that loads and any
    non-empty private key path succeeds without reading the private key
    file and without asking for a passphrase: its only call on the file
    system is the read of the public key file, and the signers of the
    encryptor are those of the agent. *)
Theorem setupEncryptor_agent_skips_key_file
    (env : Env) (home publicKeyPath privateKeyPath : string)
    (tty : result (list byte)) (w : World) (client : Agent)
    (signers : list Signer) (data : list byte) (k : PublicKey) :
  SSH_AUTH_SOCK env <> "" ->
  Dial env (SSH_AUTH_SOCK env) = Ok client ->
  AgentSigners env client = Ok signers ->
  signers <> [] ->
  publicKeyPath <> "" ->
  privateKeyPath <> "" ->
  fst (ReadFile publicKeyPath w) = Ok data ->
  ParseAuthorizedKey env data = Ok k ->
  setupEncryptor env home publicKeyPath privateKeyPath false tty w
  = (Ok {| publicKeys := [k]; privateKeys := signers;
           agentClient := Some client; useAgent := true |},
     {| fs := fs w; calls := calls w ++ [CallReadFile publicKeyPath] |}).
Proof.
  intros Hsock Hdial Hsig N Hpub Hpriv Hread Hparse.
  unfold setupEncryptor, NewSSHEncryptor, connectToAgent. cbn [negb].
  apply String.eqb_neq in Hsock, Hpub, Hpriv.
  rewrite Hsock, Hdial, Hpub, Hpriv. cbn [snd].
  unfold AddPublicKeyFromFile.
  pose proof (ReadFile_world publicKeyPath w) as [Hf Hc].
  destruct (ReadFile publicKeyPath w) as [r w1]. cbn [fst snd] in *.
  subst r. rewrite Hparse.
  unfold AddPrivateKeyFromFile.
  cbn [useAgent agentClient with_publicKeys with_agentClient privateKeys
       publicKeys app].
  rewrite Hsig. destruct signers as [|x signers]; [congruence|].
  cbn [List.length Nat.ltb Nat.leb with_privateKeys privateKeys publicKeys
       agentClient useAgent app with_publicKeys with_agentClient].
  destruct w1 as [f1 c1]. cbn [fs calls] in *. subst.
  rewrite Hpub, Hpriv. reflexivity.
Qed.

Lemma setupEncryptor_agent_skips_key_file_witness :
  setupEncryptor Fixture.env_agent "/home/alice" "/home/alice/.ssh/id_rsa.pub"
                 "/no/such/key" false (Err ErrUnexpectedEOF) Fixture.home_world
  = (Ok {| publicKeys := [Fixture.key_of (Sample.bytes "rsa-public")];
           privateKeys := [Sample.alice];
           agentClient := Some {| Signers := [Sample.alice] |};
           useAgent := true |},
     {| fs := fs Fixture.home_world;
        calls := calls Fixture.home_world
                 ++ [CallReadFile "/home/alice/.ssh/id_rsa.pub"] |}).
Proof.
  apply (setupEncryptor_agent_skips_key_file Fixture.env_agent "/home/alice"
           "/home/alice/.ssh/id_rsa.pub" "/no/such/key" (Err ErrUnexpectedEOF)
           Fixture.home_world {| Signers := [Sample.alice] |} [Sample.alice]
           (Sample.bytes "rsa-public")).
  - discriminate.
  - reflexivity.
  - reflexivity.
  - discriminate.
  - discriminate.
  - discriminate.
  - vm_compute; reflexivity.
  - reflexivity.
Defined.

(** X15.  The search of a default key: the result is the path of the first
    name of the list that exists in the directory (every name before it
    does not exist), and it is empty when no name of the list exists. *)
Theorem firstExisting_first (f : FS) (dir : string) (names : list string) :
  (exists before name after,
      names = before ++ name :: after
      /\ firstExisting f dir names = Filepath.Join [dir; name]
      /\ Stat_ok f (Filepath.Join [dir; name]) = true
      /\ forall n, In n before -> Stat_ok f (Filepath.Join [dir; n]) = false)
  \/ (firstExisting f dir names = ""
      /\ forall n, In n names -> Stat_ok f (Filepath.Join [dir; n]) = false).
Proof.
  induction names as [|name names IH]; cbn [firstExisting].
  - right. split; [reflexivity | intros n []].
  - destruct (Stat_ok f (Filepath.Join [dir; name])) eqn:E.
    + left. exists [], name, names. repeat split; [exact E | intros n []].
    + destruct IH as [(before & n0 & after & -> & Hr & Hs & Hb)|[Hr Hall]].
      * left. exists (name :: before), n0, after. repeat split; try assumption.
        intros n [<-|Hn]; [exact E | now apply Hb].
      * right. split; [exact Hr|]. intros n [<-|Hn]; [exact E | now apply Hall].
Qed.

(** X16.  Before any command other than [completion] and [help], when
    [ssh] is installed but none of the default private keys [id_ed25519],
    [id_ecdsa], [id_rsa] exists under the [.ssh] directory of the home
    directory, the set-up fails with the message "No SSH keys found ..."
    and reads no key, whatever the [--public-key] and [--private-key]
    flags name. *)
Theorem preRun_needs_default_key
    (env : Env) (home cmdName publicKeyPath privateKeyPath : string)
    (noAgent : bool) (tty : result (list byte)) (w : World) :
  cmdName <> "completion" -> cmdName <> "help" ->
  (forall keyName, In keyName defaultSSHPrivateKeys ->
                   Stat_ok (fs w) (Filepath.Join [defaultSSHDir home; keyName])
                   = false) ->
  preRun env true home cmdName publicKeyPath privateKeyPath noAgent tty w
  = (Err (New noSSHKeysMessage), w).
Proof.
  intros N1 N2 H. unfold preRun, checkSSHEnvironment.
  apply String.eqb_neq in N1, N2. rewrite N1, N2. cbn [orb negb].
  assert (E : existsb (fun keyName =>
                         Stat_ok (fs w) (Filepath.Join [defaultSSHDir home; keyName]))
                      defaultSSHPrivateKeys = false).
  { destruct (existsb _ defaultSSHPrivateKeys) eqn:E; [|reflexivity].
    apply existsb_exists in E as (n & Hn & Hs). rewrite (H n Hn) in Hs.
    discriminate. }
  now rewrite E.
Qed.

Lemma preRun_needs_default_key_witness :
  preRun Fixture.env true "/home/bob" "get" "/home/alice/.ssh/id_rsa.pub"
         "/home/alice/.ssh/id_rsa" true (Err ErrUnexpectedEOF) Fixture.home_world
  = (Err (New noSSHKeysMessage), Fixture.home_world).
Proof.
  apply (preRun_needs_default_key Fixture.env "/home/bob" "get").
  - discriminate.
  - discriminate.
  - intros keyName [<-|[<-|[<-|[]]]]; vm_compute; reflexivity.
Defined.

End CLIFacts.

(** ** Generating a password *)

Module GenerateFacts.

Import OS Crypto Storage CLI OSFacts StoreFacts TreeFacts StoreMoreFacts
       EnvelopeFacts.

Lemma get_In (s : string) :
  forall n c, String.get n s = Some c -> In c (list_ascii_of_string s).
Proof.
  induction s as [|a s IH]; intros [|n] c; cbn; try discriminate.
  - intro H. injection H as ->. now left.
  - intro H. right. exact (IH n c H).
Qed.


(** A password the loop returns has the length asked for and characters of
    the character set only. *)
Lemma fillPassword_ok (cs : string) (draws : nat -> result N) (n : nat) :
  forall i pw,
    fillPassword cs draws i n = Done (Ok pw) ->
    List.length pw = n
    /\ Forall (fun b => In (ascii_of_byte b) (list_ascii_of_string cs)) pw.
Proof.
  induction n as [|n IH]; intros i pw; cbn [fillPassword].
  - intro H. injection H as <-. split; [reflexivity | constructor].
  - destruct (draws i) as [k|err]; [|discriminate].
    destruct (String.get (N.to_nat k) cs) as [c|] eqn:G; [|discriminate].
    destruct (fillPassword cs draws (S i) n) as [[bs|err]|msg] eqn:F;
      try discriminate.
    intro H. injection H as <-. destruct (IH _ _ F) as [Hl Hc].
    split; [cbn; now rewrite Hl|].
    constructor; [|exact Hc]. rewrite ascii_of_byte_of_ascii. exact (get_In _ _ _ G).
Qed.




(** A successful [NewStore]: the root was made a directory. *)
Lemma NewStore_ok_inv (home : result string) (dir : string)
    (enc : Crypto.Encryptor) (w w' : World) (s : Store) :
  NewStore home dir enc w = (Ok s, w') ->
  encryptor s = enc
  /\ cwd (fs w') = cwd (fs w)
  /\ (exists elems es, resolve (fs w') (rootDir s) = Some elems
                       /\ lstat elems (tree (fs w')) = inr (Dir es))
  /\ (forall w2 elems es,
         resolve (fs w2) (rootDir s) = Some elems ->
         lstat elems (tree (fs w2)) = inr (Dir es) ->
         exists w3, NewStore home dir enc w2 = (Ok s, w3) /\ fs w3 = fs w2).
Proof.
  unfold NewStore.
  assert (Hmk : forall root,
    bind (wrap "failed to create store directory" (MkdirAll root perm_dir))
         (fun _ => ret {| rootDir := root; encryptor := enc |}) w = (Ok s, w') ->
    encryptor s = enc
    /\ cwd (fs w') = cwd (fs w)
    /\ (exists elems es, resolve (fs w') (rootDir s) = Some elems
                         /\ lstat elems (tree (fs w')) = inr (Dir es))
    /\ (forall w2 elems es,
           resolve (fs w2) (rootDir s) = Some elems ->
           lstat elems (tree (fs w2)) = inr (Dir es) ->
           exists w3,
             bind (wrap "failed to create store directory"
                        (MkdirAll root perm_dir))
                  (fun _ => ret {| rootDir := root; encryptor := enc |}) w2
             = (Ok s, w3) /\ fs w3 = fs w2)).
  { intro root. unfold bind, wrap, ret, MkdirAll, record, with_tree.
    cbn [fs calls tree cwd].
    destruct (resolve (fs w) root) as [elems|] eqn:R; [|discriminate].
    destruct (mkdirAll elems (tree (fs w))) as [e|t'] eqn:M; [discriminate|].
    intro H. injection H as <- <-. cbn [fs tree cwd rootDir encryptor].
    split; [reflexivity|]. split; [reflexivity|]. split.
    - destruct (mkdirAll_lstat _ _ _ M) as [es L]. now exists elems, es.
    - intros w2 elems2 es2 R2 L2. rewrite R2, (mkdirAll_existing _ _ _ L2).
      eexists. split; [reflexivity|]. cbn [fs]. now destruct (fs w2). }
  destruct (String.eqb dir "").
  - destruct home as [homeDir|err]; [|discriminate].
    unfold bind at 1, ret at 1. intro H. apply Hmk in H as (H1 & H2 & H3 & H4).
    repeat split; try assumption.
  - unfold bind at 1, ret at 1. intro H. apply Hmk in H as (H1 & H2 & H3 & H4).
    repeat split; try assumption.
Qed.

(** A successful [Add] keeps every directory a directory. *)
Lemma Add_dirs (s : Store) (rnd : entropy) (name : string) (password : list byte)
    (w w' : World) :
  Add s rnd name password w = (Ok tt, w') ->
  forall q es, lstat q (tree (fs w)) = inr (Dir es) ->
               exists es', lstat q (tree (fs w')) = inr (Dir es').
Proof.
  unfold Add.
  destruct (Encryptor_Encrypt (encryptor s) rnd password)
    as [encryptedData|err]; [|discriminate].
  unfold bind, wrap, MkdirAll, WriteFile, record, with_tree.
  cbn [fs calls tree cwd].
  destruct (resolve (fs w) _) as [delems|]; [|discriminate].
  destruct (mkdirAll delems (tree (fs w))) as [e|t1] eqn:M; [discriminate|].
  cbn [fs calls tree cwd]. rewrite resolve_with_tree.
  destruct (resolve (fs w) _) as [felems|]; [|discriminate].
  destruct (writeFile felems (list_byte_of_string encryptedData) t1)
    as [e|t2] eqn:W; [discriminate|].
  intro H. injection H as <-. cbn [fs tree]. intros q es L.
  destruct (mkdirAll_dir_frame _ _ _ M _ _ L) as [es1 L1].
  exact (writeFile_dir_frame _ _ _ _ W _ _ L1).
Qed.

(** [Get] looks at the file system only. *)
Lemma Get_fs (s : Store) (name : string) (w1 w2 : World) :
  fs w1 = fs w2 -> fst (Get s name w1) = fst (Get s name w2).
Proof.
  intro E. unfold Get, bind, wrap, ReadFile, record. cbn [fs calls]. rewrite E.
  destruct (resolve (fs w2) _) as [q|]; [|reflexivity].
  destruct (lstat q (tree (fs w2))) as [e|[d|es]]; try reflexivity.
  now destruct (Encryptor_Decrypt (encryptor s) (string_of_list_byte d)).
Qed.

(** X18.  When [generate NAME] succeeds it has printed a password of
    exactly the length asked for, and, the encryptor holding a signer, a
    later [get NAME] on the same store directory opens the store and
    returns exactly the password printed. *)
Theorem runGenerate_then_Get
    (home storeDir : string) (e : SSHEncryptor) (name : string) (length : Z)
    (noSymbols : bool) (draws : nat -> result N) (rnd : entropy)
    (w w' : World) (pw : list byte) :
  privateKeys e <> [] ->
  runGenerate home storeDir e name length noSymbols draws rnd w
  = (Done (Ok pw), w') ->
  Z.of_nat (List.length pw) = length
  /\ exists store w'',
       getStore home storeDir e w' = (Ok store, w'')
       /\ fst (Get store name w'') = Ok pw.
Proof.
  intros Hk. unfold runGenerate.
  destruct (generatePassword length noSymbols draws) as [[password|err]|msg] eqn:G;
    try (intro H; discriminate H).
  destruct (getStore home storeDir e w) as [[store|err] w1] eqn:S;
    [|intro H; discriminate H].
  destruct (Add store rnd name password w1) as [[[]|err] w2] eqn:A;
    [|intro H; discriminate H].
  intro H. injection H as <- <-. split.
  - unfold generatePassword in G.
    destruct (Z.ltb_spec length 0) as [L|L]; [discriminate|].
    apply fillPassword_ok in G as [Hl _]. lia.
  - unfold getStore in *.
    apply NewStore_ok_inv in S as (He & _ & (elems & es & R & L) & Hagain).
    destruct (Add_dirs _ _ _ _ _ _ A _ _ L) as [es' L'].
    destruct (Add_effect store rnd name password w1) as (Hc & _ & _).
    rewrite A in Hc. cbn [snd] in Hc.
    assert (R' : resolve (fs w2) (rootDir store) = Some elems)
      by (unfold resolve in *; now rewrite Hc).
    destruct (Hagain w2 elems es' R' L') as (w3 & Hs & Hf).
    exists store, w3. split; [exact Hs|].
    rewrite (Get_fs store name w3 w2 Hf).
    apply Add_Get in A as (env & Henc & ->).
    rewrite He in *.
    cbn [SSHEncryptor_Encryptor Encryptor_Encrypt Encryptor_Decrypt] in *.
    now rewrite (Decrypt_Encrypt e e rnd password env Hk Henc).
Qed.

Lemma runGenerate_then_Get_witness :
  let r := runGenerate "/home/alice" "" Sample.alice_both "email/work" 12 false
                       Fixture.draws (Ok Sample.key1) Fixture.home_world in
  exists pw store w'',
    fst r = Done (Ok pw)
    /\ Z.of_nat (List.length pw) = 12%Z
    /\ getStore "/home/alice" "" Sample.alice_both (snd r) = (Ok store, w'')
    /\ fst (Get store "email/work" w'') = Ok pw.
Proof.
  intro r. destruct (fst r) as [[pw|err]|msg] eqn:E;
    try (vm_compute in E; discriminate).
  destruct (runGenerate_then_Get "/home/alice" "" Sample.alice_both "email/work"
              12 false Fixture.draws (Ok Sample.key1) Fixture.home_world
              (snd r) pw) as (Hl & store & w'' & Hs & Hg).
  - discriminate.
  - subst r. rewrite <- E. now destruct (runGenerate _ _ _ _ _ _ _ _ _).
  - now exists pw, store, w''.
Defined.

End GenerateFacts.

(** ** Deleting an entry, then listing *)

Module DeleteListFacts.

Import Strings Filepath OS Storage TreeNames OrderFacts WalkFacts StringFacts
       PathFacts OSFacts StoreFacts TreeFacts StoreMoreFacts AddListFacts.

Lemma names_ok_Dir (es : list (string * node)) :
  names_ok (Dir es) = true <->
  Forall (fun e => is_name (fst e) = true /\ names_ok (snd e) = true) es.
Proof.
  cbn [names_ok]. induction es as [|[k c] es IH].
  - split; [constructor | reflexivity].
  - split.
    + intro H. apply andb_prop in H as [H1 H2]. apply andb_prop in H1 as [Hk Hc].
      constructor; [now split | now apply IH].
    + intro H. inversion H as [|? ? [Hk Hc] Hes]; subst. cbn [fst snd] in *.
      rewrite Hk, Hc. cbn [andb]. now apply IH.
Qed.

Lemma names_ok_lstat (p : list string) :
  forall t m, names_ok t = true -> lstat p t = inr m ->
              forallb is_name p = true /\ names_ok m = true.
Proof.
  induction p as [|k p IH]; intros t m Hok; cbn [lstat forallb].
  - intro H. injection H as <-. now split.
  - destruct t as [d|es]; [discriminate|].
    destruct (lookup k es) as [c|] eqn:L; [|discriminate].
    apply lookup_In in L. apply names_ok_Dir in Hok.
    rewrite Forall_forall in Hok. destruct (Hok _ L) as [Hk Hc]. cbn [fst snd] in *.
    intro H. destruct (IH _ _ Hc H) as [Hp Hm]. now rewrite Hk, Hp.
Qed.

Lemma Forall_set_entry_at (P : string * node -> Prop) (k : string) (n : node)
    (es : list (string * node)) :
  P (k, n) -> Forall P es -> Forall P (set_entry k n es).
Proof.
  intros Hn. induction 1 as [|[k0 m] es H0 Hes IH]; cbn.
  - now repeat constructor.
  - destruct (String.eqb_spec k0 k) as [->|_]; constructor; auto.
Qed.

Lemma Forall_remove_entry (P : string * node -> Prop) (k : string)
    (es : list (string * node)) :
  Forall P es -> Forall P (remove_entry k es).
Proof.
  induction 1 as [|[k0 m] es H0 Hes IH]; cbn; [constructor|].
  destruct (String.eqb k0 k); [exact Hes | now constructor].
Qed.

Lemma distinct_remove_entry (k : string) (es : list (string * node)) :
  distinct (map fst es) = true -> distinct (map fst (remove_entry k es)) = true.
Proof.
  induction es as [|[k0 m] es IH]; cbn [remove_entry map fst distinct];
    [reflexivity|].
  intro H. apply andb_prop in H as [H1 H2].
  destruct (String.eqb_spec k0 k) as [->|N]; [exact H2|].
  cbn [map fst distinct]. rewrite (IH H2), andb_true_r.
  apply negb_true_iff, lookup_None_names.
  rewrite lookup_remove_entry_ne by exact N.
  apply lookup_None_names. now apply negb_true_iff.
Qed.

(** [Remove] keeps the tree one of a file system. *)
Lemma remove_keeps (q : list string) :
  forall t t', remove q t = inr t' ->
  (wf_node t = true -> wf_node t' = true)
  /\ (names_ok t = true -> names_ok t' = true).
Proof.
  induction q as [|el rest IH]; intros [d|es] t'; cbn [remove]; try discriminate.
  destruct rest as [|r rs].
  - assert (H : inr (A := errno) (Dir (remove_entry el es)) = inr t' ->
                (wf_node (Dir es) = true -> wf_node t' = true)
                /\ (names_ok (Dir es) = true -> names_ok t' = true)).
    { intro H. injection H as <-. split.
      - intro Hw. apply wf_node_Dir in Hw as [Hd Hc].
        apply wf_node_Dir_intro; [now apply distinct_remove_entry|].
        now apply Forall_remove_entry.
      - intro Hn. apply names_ok_Dir. apply names_ok_Dir in Hn.
        now apply Forall_remove_entry. }
    destruct (lookup el es) as [[d1|[|x sub]]|]; try discriminate; exact H.
  - destruct (lookup el es) as [c|] eqn:L; [|discriminate].
    destruct (remove (r :: rs) c) as [e|c'] eqn:R; [discriminate|].
    intro H. injection H as <-. destruct (IH _ _ R) as [IHw IHn]. split.
    + intro Hw. apply wf_set_entry; [exact Hw|].
      apply IHw. exact (wf_lookup _ _ _ Hw L).
    + intro Hn. apply names_ok_Dir. apply names_ok_Dir in Hn.
      pose proof (lookup_In _ _ _ L) as Hin.
      rewrite Forall_forall in Hn. destruct (Hn _ Hin) as [Hk Hc].
      apply Forall_set_entry_at; [split; [exact Hk | now apply IHn]|].
      now apply Forall_forall.
Qed.

Lemma remove_Dir (q : list string) (t t' : node) :
  remove q t = inr t' -> exists es, t' = Dir es.
Proof.
  destruct q as [|el [|r rs]]; destruct t as [d|es]; cbn [remove];
    try discriminate.
  - destruct (lookup el es) as [[d1|[|x sub]]|]; try discriminate;
      intro H; injection H as <-; now eexists.
  - destruct (lookup el es) as [c|]; [|discriminate].
    match goal with
    | |- match ?X with _ => _ end = _ -> _ => destruct X; [discriminate|]
    end.
    intro H; injection H as <-; now eexists.
Qed.

(** After [Remove] of a path, what is above the path is still a
    directory. *)
Lemma remove_above (p r : list string) :
  r <> [] ->
  forall t t', remove (p ++ r) t = inr t' -> exists es, lstat p t' = inr (Dir es).
Proof.
  intro N. induction p as [|k p IH]; intros t t' H.
  - cbn [app lstat] in *. destruct (remove_Dir _ _ _ H) as [es ->]. now exists es.
  - cbn [app] in H. destruct t as [d|es]; [cbn [remove] in H; discriminate|].
    assert (E : p ++ r <> []) by (destruct p; [exact N | discriminate]).
    cbn [remove] in H. destruct (p ++ r) as [|x l] eqn:Epr; [congruence|].
    destruct (lookup k es) as [c|] eqn:L; [|discriminate].
    destruct (remove (x :: l) c) as [e|c'] eqn:R; [discriminate|].
    injection H as <-. cbn [lstat]. rewrite lookup_set_entry.
    exact (IH _ _ R).
Qed.

Lemma substring_all (x : string) : substring 0 (String.length x) x = x.
Proof. induction x as [|c x IH]; cbn; [reflexivity | now rewrite IH]. Qed.

Lemma substring_split (x : string) :
  forall n, (n <= String.length x)%nat ->
            x = (substring 0 n x ++ substring n (String.length x - n) x)%string.
Proof.
  induction x as [|c x IH]; intros [|n] H; cbn in *; try lia.
  - reflexivity.
  - now rewrite substring_all.
  - f_equal. apply IH. lia.
Qed.

(** A string with a suffix is what [TrimSuffix] leaves, then the suffix. *)
Lemma TrimSuffix_inv (x suffix : string) :
  HasSuffix x suffix = true -> x = (TrimSuffix x suffix ++ suffix)%string.
Proof.
  intro H. unfold TrimSuffix. rewrite H. unfold HasSuffix in H.
  apply andb_prop in H as [Hl He]. apply Nat.leb_le in Hl.
  apply String.eqb_eq in He.
  rewrite (substring_split x (String.length x - String.length suffix)) at 1 by lia.
  f_equal. rewrite <- He at 3. f_equal. lia.
Qed.

(** What [List] returns on a store whose root is a directory: names of
    entries only. *)
Lemma List_entries_sound (s : Store) (w : World) (elems : list string)
    (es : list (string * node)) :
  resolve (fs w) (rootDir s) = Some elems ->
  lstat elems (tree (fs w)) = inr (Dir es) ->
  wf_node (Dir es) = true ->
  exists paths,
    fst (List s w) = Ok (map entry_name paths)
    /\ (forall p, In p paths -> is_entry (Dir es) p).
Proof.
  intros Hres Hroot Hwf.
  exists (map fst (filter (fun v => negb (snd v)
                                    && HasSuffix (last (fst v) "") ".pass")
                          (walk [] (Dir es)))).
  split.
  - unfold List, wrap, record. cbn [fs calls]. rewrite Hres, Hroot. cbn [fst].
    f_equal. apply StoreListClaims.list_visit_entries.
    intros [p b] Hv E. cbn [fst snd] in *.
    apply (walk_In _ Hwf) in Hv as (q & m & Hp & Hl & ->). cbn [app] in Hp.
    subst. cbn in Hl. now injection Hl as <-.
  - intros p Hp. apply in_map_iff in Hp as ([p' b] & E & Hin).
    cbn [fst] in E. subst p'.
    apply filter_In in Hin as [Hin Hc]. cbn [fst snd] in Hc.
    apply andb_prop in Hc as [Hb Hs]. apply negb_true_iff in Hb. subst b.
    apply (walk_In _ Hwf) in Hin as (q & m & Hq & Hl & Hd).
    cbn [app] in Hq. subst q.
    destruct m as [data|sub]; [|discriminate].
    assert (Hne : p <> []) by (intros ->; discriminate).
    exists (removelast p), (last p ""), data.
    split; [now apply app_removelast_last | now split].
Qed.

(** X19.  In a store with an absolute root, after a successful [Delete] of
    a name made of file names separated by slashes, the name is not among
    the names [List] returns. *)
Theorem Delete_then_List
    (s : Store) (name : string) (w w' : World) (names : list string) :
  rooted (rootDir s) = true ->
  forallb is_name (elements name) = true ->
  wf_node (tree (fs w)) = true ->
  names_ok (tree (fs w)) = true ->
  Delete s name w = (Ok tt, w') ->
  fst (List s w') = Ok names ->
  ~ In name names.
Proof.
  intros Hr Hn Hwf Hok H HL Hin.
  destruct (exists_last (Split_not_nil name Separator)) as (init & l & E).
  fold (elements name) in E.
  pose proof (entry_file_elements (fs w) _ _ _ _ Hr E Hn) as Hf.
  set (R := clean_elements true (elements (rootDir s)) []) in *.
  apply Delete_ok_inv in H as (q & Hq & M & Hc).
  rewrite Hf in Hq. injection Hq as <-.
  destruct (remove_keeps _ _ _ M) as [Hwf' Hok'].
  specialize (Hwf' Hwf). specialize (Hok' Hok).
  pose proof (remove_lstat _ _ _ Hwf M) as Hgone.
  destruct (remove_above R (init ++ [(l ++ ".pass")%string])
              ltac:(now destruct init) _ _ M) as [es LR].
  assert (Hres : resolve (fs w') (rootDir s) = Some R).
  { destruct (rooted_inv _ Hr) as [rest Er]. subst R. now rewrite Er. }
  destruct (List_entries_sound s w' R es Hres LR (wf_lstat _ _ _ Hwf' LR))
    as (paths & HL' & Hent).
  rewrite HL' in HL. injection HL as <-.
  apply in_map_iff in Hin as (p & Hp & Hpin).
  destruct (Hent p Hpin) as (init' & nm & data & -> & Hl & Hs).
  destruct (names_ok_lstat _ _ _ Hok' LR) as [_ HokR].
  destruct (names_ok_lstat _ _ _ HokR Hl) as [Hnames _].
  unfold entry_name in Hp.
  rewrite (TrimSuffix_inv nm ".pass" Hs), Join_app_last, TrimSuffix_app in Hp.
  assert (Ep : init' ++ [nm] = init ++ [(l ++ ".pass")%string]).
  { rewrite <- (elements_Join (init' ++ [nm]) Hnames) by now destruct init'.
    rewrite (TrimSuffix_inv nm ".pass" Hs) at 1. rewrite Join_app_last, Hp.
    destruct (Split_app_no_sep name ".pass" Separator eq_refl)
      as (i0 & l0 & E1 & E2).
    unfold elements in *. rewrite E in E1. apply app_inj_tail in E1 as [<- <-].
    exact E2. }
  rewrite Ep in Hl. rewrite lstat_app, LR in Hgone. congruence.
Qed.

Lemma Delete_then_List_witness :
  fst (List Sample.store (snd (Delete Sample.store "a" Sample.world_a_abang)))
  = Ok ["a!"]
  /\ ~ In "a" ["a!"].
Proof.
  split; [vm_compute; reflexivity|].
  apply (Delete_then_List Sample.store "a" Sample.world_a_abang
           (snd (Delete Sample.store "a" Sample.world_a_abang)) ["a!"]).
  - reflexivity.
  - vm_compute; reflexivity.
  - vm_compute; reflexivity.
  - vm_compute; reflexivity.
  - vm_compute; reflexivity.
  - vm_compute; reflexivity.
Defined.

End DeleteListFacts.
